(** * Force-directed layout engine: [ForceSimulation] of
    [client/src/wasm/force-calculations.cpp]

    The C++ class is embedded shallowly.  A [float] is an IEEE-754 binary32
    value, modelled by the Standard Library's [spec_float] at precision 24
    and maximal exponent 128 (round to nearest, ties to even, one NaN);
    every operation of the source is one rounded binary32 operation, in the
    order the source writes them (no fused multiply-add, no wider
    intermediate), [sqrt] being the correctly rounded square root.
    The object [*this] is a record; the member function [step] runs in a
    small state monad over that record whose only failure is an access to a
    [std::vector] outside its bounds (undefined behaviour in C++). *)

From Stdlib Require Import ZArith Lia Bool List.
From Stdlib Require Import Floats.SpecFloat.
From stdpp Require Import base list.

Local Open Scope Z_scope.

(** ** binary32 arithmetic *)

Module F32.

Definition prec : Z := 24.
Definition emax : Z := 128.

Definition float : Type := spec_float.

Definition add : float -> float -> float := SFadd prec emax.
Definition sub : float -> float -> float := SFsub prec emax.
Definition mul : float -> float -> float := SFmul prec emax.
Definition div : float -> float -> float := SFdiv prec emax.
Definition sqrt : float -> float := SFsqrt prec emax.
Definition ltb : float -> float -> bool := SFltb.
Definition leb : float -> float -> bool := SFleb.
Definition eqb : float -> float -> bool := SFeqb.
Definition abs : float -> float := SFabs.
Definition opp : float -> float := SFopp.

(** Conversion of an integer literal, as in [Vec3 force = {0, 0, 0}] and
    [distance > 0]. *)
Definition of_int (k : Z) : float := binary_normalize prec emax k 0 false.

Definition zero : float := of_int 0.
Definition one : float := of_int 1.

Definition is_nan (a : float) : bool :=
  match a with S754_nan => true | _ => false end.

Definition is_finite (a : float) : bool :=
  match a with S754_zero _ | S754_finite _ _ _ => true | _ => false end.

Definition is_zero (a : float) : bool :=
  match a with S754_zero _ => true | _ => false end.

(** Neither a NaN nor below zero (a zero of either sign counts). *)
Definition is_nonneg (a : float) : bool :=
  match a with
  | S754_zero _ => true
  | S754_infinity s | S754_finite s _ _ => negb s
  | S754_nan => false
  end.

(** A value of the binary32 format: canonical mantissa and exponent. *)
Definition valid (a : float) : bool := valid_binary prec emax a.

End F32.

Abbreviation float := F32.float.

Arguments F32.add : simpl never.
Arguments F32.sub : simpl never.
Arguments F32.mul : simpl never.
Arguments F32.div : simpl never.
Arguments F32.sqrt : simpl never.

Declare Scope f32_scope.
Delimit Scope f32_scope with f32.
Infix "+" := F32.add : f32_scope.
Infix "-" := F32.sub : f32_scope.
Infix "*" := F32.mul : f32_scope.
Infix "/" := F32.div : f32_scope.
Infix "<?" := F32.ltb : f32_scope.

(** ** Data model (lines 9-31) *)

Record Vec3 : Type := mkVec3 { x : float; y : float; z : float }.

Record Node : Type := mkNode {
  position : Vec3;
  velocity : Vec3;
  charge : float
}.

Record Link : Type := mkLink { source : Z; target : Z }.

Record ForceSimulation : Type := mkForceSimulation {
  nodes : list Node;
  links : list Link;
  distances : list float;
  strengths : list float;
  maxDistance : float;
  velocityDecay : float
}.

Definition set_nodes (s : ForceSimulation) (ns : list Node) : ForceSimulation :=
  mkForceSimulation ns (links s) (distances s) (strengths s)
                    (maxDistance s) (velocityDecay s).

(** Constructor and setters (lines 34-51): each stores a copy of its
    argument. *)

Definition ForceSimulation_new (maxDist velDecay : float) : ForceSimulation :=
  mkForceSimulation [] [] [] [] maxDist velDecay.

Definition setNodes (newNodes : list Node) (s : ForceSimulation)
  : ForceSimulation :=
  set_nodes s newNodes.

Definition setLinks (newLinks : list Link) (s : ForceSimulation)
  : ForceSimulation :=
  mkForceSimulation (nodes s) newLinks (distances s) (strengths s)
                    (maxDistance s) (velocityDecay s).

Definition setDistances (newDistances : list float) (s : ForceSimulation)
  : ForceSimulation :=
  mkForceSimulation (nodes s) (links s) newDistances (strengths s)
                    (maxDistance s) (velocityDecay s).

Definition setStrengths (newStrengths : list float) (s : ForceSimulation)
  : ForceSimulation :=
  mkForceSimulation (nodes s) (links s) (distances s) newStrengths
                    (maxDistance s) (velocityDecay s).

(** ** The monad of member functions

    State: the object.  [OutOfBounds] records the object as it stood when a
    vector was indexed outside its bounds; what the C++ program does after
    that point is undefined.  [DivisionByZero] is raised only by the checking
    division [checked_div] below, never by the IEEE division the program
    runs with. *)

Inductive outcome (A : Type) : Type :=
| Ok (a : A) (s : ForceSimulation)
| OutOfBounds (s : ForceSimulation)
| DivisionByZero (s : ForceSimulation).
Arguments Ok {A} a s.
Arguments OutOfBounds {A} s.
Arguments DivisionByZero {A} s.

Definition M (A : Type) : Type := ForceSimulation -> outcome A.

Definition ret {A} (a : A) : M A := fun s => Ok a s.

Definition bind {A B} (m : M A) (k : A -> M B) : M B :=
  fun s => match m s with
           | Ok a s' => k a s'
           | OutOfBounds s' => OutOfBounds s'
           | DivisionByZero s' => DivisionByZero s'
           end.

Declare Scope sim_scope.
Delimit Scope sim_scope with sim.
Notation "v <- m ;; k" := (bind m (fun v => k))
  (at level 100, m at next level, right associativity) : sim_scope.
Notation "m ;; k" := (bind m (fun _ => k))
  (at level 100, right associativity) : sim_scope.

(** [v[i]] for a [size_t] index. *)
Definition at_index {A} (v : ForceSimulation -> list A) (i : nat) : M A :=
  fun s => match v s !! i with
           | Some a => Ok a s
           | None => OutOfBounds s
           end.

(** [nodes[i]] used as an lvalue whose fields are updated by [f]. *)
Definition update_node (i : nat) (f : Node -> Node) : M unit :=
  fun s => match nodes s !! i with
           | Some n => Ok tt (set_nodes s (<[i := f n]> (nodes s)))
           | None => OutOfBounds s
           end.

Definition size_of {A} (v : ForceSimulation -> list A) : M nat :=
  fun s => Ok (length (v s)) s.

Definition read {A} (field : ForceSimulation -> A) : M A :=
  fun s => Ok (field s) s.

(** An [int] converted to [size_t] (32 bits on the wasm32 target) when it
    indexes a vector: negative values wrap around. *)
Definition size_t_of_int (k : Z) : nat := Z.to_nat (k mod 2 ^ 32).

(** [for (size_t i = first; i < first + count; i++) body(i)]. *)
Fixpoint for_range (body : nat -> M unit) (first count : nat) : M unit :=
  match count with
  | O => ret tt
  | S c => (body first ;; for_range body (S first) c)%sim
  end.

(** The same loop threading a local variable. *)
Fixpoint for_acc {A} (body : nat -> A -> M A) (first count : nat) (acc : A)
  : M A :=
  match count with
  | O => ret acc
  | S c => (acc' <- body first acc ;; for_acc body (S first) c acc')%sim
  end.

(** ** [getNodes] (lines 53-55)

    The member function is [const] and returns a reference to the member
    [nodes]: a reference is modelled by the place it designates, and is read
    against the object as it stands at the time of the read. *)

Inductive node_vector_ref : Type := Ref_nodes.

Definition getNodes (s : ForceSimulation) : node_vector_ref * ForceSimulation :=
  (Ref_nodes, s).

Definition deref (r : node_vector_ref) (s : ForceSimulation) : list Node :=
  match r with Ref_nodes => nodes s end.

(** ** [step] (lines 57-119) *)

Definition add_velocity (f : Vec3) (n : Node) : Node :=
  mkNode (position n)
         (mkVec3 (x (velocity n) + x f) (y (velocity n) + y f)
                 (z (velocity n) + z f))%f32
         (charge n).

Definition sub_velocity (f : Vec3) (n : Node) : Node :=
  mkNode (position n)
         (mkVec3 (x (velocity n) - x f) (y (velocity n) - y f)
                 (z (velocity n) - z f))%f32
         (charge n).

(** The float division [a / b].  [step] is written over the division it
    uses, so that the same text runs with the IEEE division ([ieee_div], what
    the program does) and with a division that stops at a zero divisor
    ([checked_div], used to state that none occurs). *)

Definition ieee_div (a b : float) : M float := ret (a / b)%f32.

Definition checked_div (a b : float) : M float :=
  fun s => if F32.is_zero b then DivisionByZero s else Ok (a / b)%f32 s.

Section Step.

Variable fdiv : float -> float -> M float.

(** Lines 62-74: one iteration of the inner loop of the repulsion phase. *)
Definition repulsion_inner_body (i j : nat) (force : Vec3) : M Vec3 :=
  (if negb (Nat.eqb i j) then
     nj <- at_index nodes j ;;
     ni <- at_index nodes i ;;
     maxDist <- read maxDistance ;;
     let dx := (x (position nj) - x (position ni))%f32 in
     let dy := (y (position nj) - y (position ni))%f32 in
     let dz := (z (position nj) - z (position ni))%f32 in
     let distance := F32.sqrt (dx * dx + dy * dy + dz * dz)%f32 in
     if (F32.zero <? distance)%f32 && (distance <? maxDist)%f32 then
       repulsion <- fdiv (charge ni * charge nj)%f32
                         (distance * distance)%f32 ;;
       ux <- fdiv dx distance ;;
       uy <- fdiv dy distance ;;
       uz <- fdiv dz distance ;;
       ret (mkVec3 (x force + ux * repulsion)
                   (y force + uy * repulsion)
                   (z force + uz * repulsion))%f32
     else ret force
   else ret force)%sim.

(** Lines 59-79. *)
Definition repulsion_body (i : nat) : M unit :=
  (n <- size_of nodes ;;
   force <- for_acc (repulsion_inner_body i) 0 n
                    (mkVec3 F32.zero F32.zero F32.zero) ;;
   update_node i (add_velocity force))%sim.

(** No iteration changes the size of [nodes], so the bound read on entry is
    the bound every test [i < nodes.size()] sees. *)
Definition repulsion_phase : M unit :=
  (n <- size_of nodes ;; for_range repulsion_body 0 n)%sim.

(** Lines 83-106: one iteration of the link loop. *)
Definition link_body (i : nat) : M unit :=
  (l <- at_index links i ;;
   let source := source l in
   let target := target l in
   targetDistance <- at_index distances i ;;
   strength <- at_index strengths i ;;
   nt <- at_index nodes (size_t_of_int target) ;;
   ns <- at_index nodes (size_t_of_int source) ;;
   let dx := (x (position nt) - x (position ns))%f32 in
   let dy := (y (position nt) - y (position ns))%f32 in
   let dz := (z (position nt) - z (position ns))%f32 in
   let distance := F32.sqrt (dx * dx + dy * dy + dz * dz)%f32 in
   if (F32.zero <? distance)%f32 then
     let force := (strength * (distance - targetDistance))%f32 in
     ux <- fdiv dx distance ;;
     uy <- fdiv dy distance ;;
     uz <- fdiv dz distance ;;
     let f := (mkVec3 (ux * force) (uy * force) (uz * force))%f32 in
     update_node (size_t_of_int source) (add_velocity f) ;;
     update_node (size_t_of_int target) (sub_velocity f)
   else ret tt)%sim.

Definition link_phase : M unit :=
  (n <- size_of links ;; for_range link_body 0 n)%sim.

(** Lines 110-118: the body of the range-based loop, on one element. *)
Definition integrate (velocityDecay : float) (node : Node) : Node :=
  let p := (mkVec3 (x (position node) + x (velocity node))
                   (y (position node) + y (velocity node))
                   (z (position node) + z (velocity node)))%f32 in
  let v := (mkVec3 (x (velocity node) * velocityDecay)
                   (y (velocity node) * velocityDecay)
                   (z (velocity node) * velocityDecay))%f32 in
  mkNode p v (charge node).

Definition integration_phase : M unit :=
  fun s => Ok tt (set_nodes s (map (integrate (velocityDecay s)) (nodes s))).

Definition step_with : M unit :=
  (repulsion_phase ;; link_phase ;; integration_phase)%sim.

End Step.

(** [step] as the program runs it, and under the checking division. *)
Definition step : M unit := step_with ieee_div.
Definition step_checked : M unit := step_with checked_div.

(** [n] consecutive calls of [step]. *)
Fixpoint steps (n : nat) : M unit :=
  match n with
  | O => ret tt
  | S k => (step ;; steps k)%sim
  end.

(** ** Functional reading of the phases

    What the loops compute, as functions of the node vector; the lemmas
    below show that the loops above compute exactly these. *)

Definition zero3 : Vec3 := mkVec3 F32.zero F32.zero F32.zero.

#[global] Instance Node_inhabited : Inhabited Node :=
  populate (mkNode zero3 zero3 F32.zero).

(** The Euclidean distance between two nodes, as lines 63-67 and 88-92
    compute it: from the second node to the first. *)
Definition displacement (ni nj : Node) : Vec3 :=
  (mkVec3 (x (position nj) - x (position ni))
          (y (position nj) - y (position ni))
          (z (position nj) - z (position ni)))%f32.

Definition norm (d : Vec3) : float :=
  F32.sqrt (x d * x d + y d * y d + z d * z d)%f32.

Definition node_distance (ni nj : Node) : float := norm (displacement ni nj).

(** The guard of line 68. *)
Definition in_range (maxDist distance : float) : bool :=
  (F32.zero <? distance)%f32 && (distance <? maxDist)%f32.

(** Lines 69-72: the vector one pair adds to the accumulator. *)
Definition pair_force (ni nj : Node) : Vec3 :=
  let d := displacement ni nj in
  let distance := norm d in
  let repulsion := (charge ni * charge nj / (distance * distance))%f32 in
  (mkVec3 (x d / distance * repulsion) (y d / distance * repulsion)
          (z d / distance * repulsion))%f32.

Definition vadd (a b : Vec3) : Vec3 :=
  (mkVec3 (x a + x b) (y a + y b) (z a + z b))%f32.

Definition vscale (a : Vec3) (k : float) : Vec3 :=
  (mkVec3 (x a * k) (y a * k) (z a * k))%f32.

Definition accumulate (maxDist : float) (ns : list Node) (i : nat)
    (force : Vec3) (j : nat) : Vec3 :=
  if negb (Nat.eqb i j) then
    if in_range maxDist (node_distance (ns !!! i) (ns !!! j))
    then vadd force (pair_force (ns !!! i) (ns !!! j))
    else force
  else force.

(** The total force the inner loop leaves in [force] for node [i]. *)
Definition force_on (maxDist : float) (ns : list Node) (i : nat) : Vec3 :=
  fold_left (accumulate maxDist ns i) (seq 0 (length ns)) zero3.

Definition repulsion_update (maxDist : float) (ns : list Node) (i : nat)
  : list Node :=
  <[i := add_velocity (force_on maxDist ns i) (ns !!! i)]> ns.

(** The whole phase, every force taken from the vector [ns] as it stood when
    the phase began. *)
Definition repulsed (maxDist : float) (ns : list Node) : list Node :=
  imap (fun i n => add_velocity (force_on maxDist ns i) n) ns.

(** Lines 88-106 on the node vector, for a link whose accesses are in
    bounds. *)
Definition link_force (strength targetDistance : float) (nsrc ntgt : Node)
  : Vec3 :=
  let d := displacement nsrc ntgt in
  let distance := norm d in
  let force := (strength * (distance - targetDistance))%f32 in
  (mkVec3 (x d / distance * force) (y d / distance * force)
          (z d / distance * force))%f32.

Definition link_update (l : Link) (targetDistance strength : float)
    (ns : list Node) : list Node :=
  let src := size_t_of_int (source l) in
  let tgt := size_t_of_int (target l) in
  let nsrc := ns !!! src in
  let ntgt := ns !!! tgt in
  if (F32.zero <? node_distance nsrc ntgt)%f32 then
    let f := link_force strength targetDistance nsrc ntgt in
    let ns1 := <[src := add_velocity f nsrc]> ns in
    <[tgt := sub_velocity f (ns1 !!! tgt)]> ns1
  else ns.

(** The accesses of one iteration of the link loop are in bounds. *)
Definition link_in_bounds (s : ForceSimulation) (i : nat) (l : Link) : bool :=
  (i <? length (distances s))%nat && (i <? length (strengths s))%nat
  && (size_t_of_int (source l) <? length (nodes s))%nat
  && (size_t_of_int (target l) <? length (nodes s))%nat.

#[global] Instance Link_inhabited : Inhabited Link := populate (mkLink 0 0).
#[global] Instance float_inhabited : Inhabited float := populate F32.zero.

(** Every access of [step] is in bounds: each link index addresses a node and
    each constraint array has an entry for each link. *)
Definition links_in_bounds (s : ForceSimulation) : bool :=
  forallb (fun i => link_in_bounds s i (links s !!! i))
          (seq 0 (length (links s))).

(** The link loop on the node vector. *)
Definition link_step (s : ForceSimulation) (ns : list Node) (i : nat)
  : list Node :=
  link_update (links s !!! i) (distances s !!! i) (strengths s !!! i) ns.

Definition linked (s : ForceSimulation) : list Node :=
  fold_left (link_step s) (seq 0 (length (links s))) (nodes s).

(** The first link, if any, one of whose accesses is out of bounds, and the
    object as it stands when [step] reaches it: the repulsion phase and the
    links before it have updated the velocities. *)
Definition first_fault (s : ForceSimulation) : option nat :=
  List.find (fun i => negb (link_in_bounds s i (links s !!! i)))
            (seq 0 (length (links s))).

Definition faulted (s : ForceSimulation) (k : nat) : ForceSimulation :=
  let s1 := set_nodes s (repulsed (maxDistance s) (nodes s)) in
  set_nodes s (fold_left (link_step s1) (seq 0 k) (nodes s1)).

(** The node vector after the two force phases: velocities hold the forces,
    nothing has moved and nothing has been damped yet. *)
Definition forced (s : ForceSimulation) : list Node :=
  linked (set_nodes s (repulsed (maxDistance s) (nodes s))).

(** The object after the three phases. *)
Definition stepped (s : ForceSimulation) : ForceSimulation :=
  set_nodes s (map (integrate (velocityDecay s)) (forced s)).

(** ** What the specification asks of a configuration, and what [step]
    leaves alone *)

(** The validation the specification describes: indices below the node
    count, constraint arrays of exactly the length of the link array. *)
Definition index_in_range (s : ForceSimulation) (l : Link) : bool :=
  (0 <=? source l) && (source l <? Z.of_nat (length (nodes s)))
  && (0 <=? target l) && (target l <? Z.of_nat (length (nodes s))).

Definition lengths_match (s : ForceSimulation) : bool :=
  (length (distances s) =? length (links s))%nat
  && (length (strengths s) =? length (links s))%nat.

Definition well_configured (s : ForceSimulation) : bool :=
  forallb (index_in_range s) (links s) && lengths_match s.

(** What the force phases read of a node and never write. *)
Definition geometry (n : Node) : Vec3 * float := (position n, charge n).

(** What [step] never writes: the number of nodes, their charges, the link
    and constraint arrays and the configuration. *)
Definition frame (s : ForceSimulation)
  : nat * list float * list Link * list float * list float * float * float :=
  (length (nodes s), charge <$> nodes s, links s, distances s, strengths s,
   maxDistance s, velocityDecay s).

(** The final object of a run, whatever its outcome. *)
Definition final_state {A} (o : outcome A) : ForceSimulation :=
  match o with Ok _ s | OutOfBounds s | DivisionByZero s => s end.

(** ** The phases as the specification words them

    Repulsion: "If d == 0 or d >= maxDistance, contribute nothing.  Otherwise
    compute magnitude = charge_i * charge_j / d^2 and add
    magnitude * (displacement / d) to node i's velocity." *)
Definition spec_repulsion_term (maxDist : float) (ni nj : Node)
  : option Vec3 :=
  let disp := displacement ni nj in
  let d := norm disp in
  if F32.eqb d F32.zero || F32.leb maxDist d then None
  else
    let magnitude := (charge ni * charge nj / (d * d))%f32 in
    Some (mkVec3 (magnitude * (x disp / d)) (magnitude * (y disp / d))
                 (magnitude * (z disp / d)))%f32.

Definition contribute (force : Vec3) (term : option Vec3) : Vec3 :=
  match term with
  | None => force
  | Some c => vadd force c
  end.

(** "For every ordered pair of distinct node indices (i, j)": what node [i]
    receives from the others, taken in index order, and the phase on the
    node vector, every term computed from the vector [ns] as it stood
    before the phase. *)
Definition spec_force_on (maxDist : float) (ns : list Node) (i : nat) : Vec3 :=
  fold_left
    (fun force j =>
       if Nat.eqb i j then force
       else contribute force
              (spec_repulsion_term maxDist (ns !!! i) (ns !!! j)))
    (seq 0 (length ns)) zero3.

Definition spec_repulsed (maxDist : float) (ns : list Node) : list Node :=
  imap (fun i n => add_velocity (spec_force_on maxDist ns i) n) ns.

(** Link constraint: "If d == 0, skip entirely.  Otherwise compute
    force = strength[k] * (d - targetDistance[k]) and the unit direction
    displacement / d.  Add force * direction to the source's velocity;
    subtract the same vector from the target's velocity." *)
Definition spec_link_term (strength targetDistance : float)
    (nsrc ntgt : Node) : option Vec3 :=
  let disp := displacement nsrc ntgt in
  let d := norm disp in
  if F32.eqb d F32.zero then None
  else
    let force := (strength * (d - targetDistance))%f32 in
    Some (mkVec3 (force * (x disp / d)) (force * (y disp / d))
                 (force * (z disp / d)))%f32.

Definition spec_link_apply (src tgt : nat) (term : option Vec3)
    (ns : list Node) : list Node :=
  match term with
  | None => ns
  | Some f =>
      let ns1 := <[src := add_velocity f (ns !!! src)]> ns in
      <[tgt := sub_velocity f (ns1 !!! tgt)]> ns1
  end.

(** ** Predicates on numbers and vectors *)

(** All three components are finite numbers. *)
Definition finite3 (v : Vec3) : bool :=
  F32.is_finite (x v) && F32.is_finite (y v) && F32.is_finite (z v).

Definition zero3b (a : Vec3) : bool :=
  F32.is_zero (x a) && F32.is_zero (y a) && F32.is_zero (z a).

(** The same number: equal, or zeros that differ in sign at most. *)
Definition same_number (a b : float) : Prop :=
  a = b \/ (F32.is_zero a = true /\ F32.is_zero b = true).

Definition same_vector (a b : Vec3) : Prop :=
  same_number (x a) (x b) /\ same_number (y a) (y b)
  /\ same_number (z a) (z b).

(** A binary32 number: finite, with canonical mantissa and exponent. *)
Definition number (a : float) : bool := F32.is_finite a && F32.valid a.

Definition number3 (v : Vec3) : bool :=
  number (x v) && number (y v) && number (z v).

(** [a] is no larger than [b] in magnitude. *)
Definition no_larger (a b : float) : bool := F32.leb (F32.abs a) (F32.abs b).

Definition no_larger3 (u v : Vec3) : bool :=
  no_larger (x u) (x v) && no_larger (y u) (y v) && no_larger (z u) (z v).

(** ** A single node across steps *)

(** An engine holding one node and no link. *)
Definition single_node (p v : Vec3) (c : float) (ds ss : list float)
    (maxDist velDecay : float) : ForceSimulation :=
  mkForceSimulation [mkNode p v c] [] ds ss maxDist velDecay.

(** Velocity and position of a single node after [n] steps: each step adds
    the zero force to the velocity, moves by the result and damps it. *)
Fixpoint decayed (velDecay : float) (n : nat) (v : Vec3) : Vec3 :=
  match n with
  | O => v
  | S k => vscale (vadd (decayed velDecay k v) zero3) velDecay
  end.

Fixpoint drifted (velDecay : float) (n : nat) (p v : Vec3) : Vec3 :=
  match n with
  | O => p
  | S k => vadd (drifted velDecay k p v) (vadd (decayed velDecay k v) zero3)
  end.

(** ** Rounding: what the analysis of [binary_round_aux] speaks of *)

(** Whether a rounding location records a loss. *)
Definition loc_inexact (l : location) : bool :=
  match l with loc_Exact => false | loc_Inexact _ => true end.

(** A canonical binary32 mantissa and exponent, by bounds. *)
Definition canon (m e : Z) : Prop :=
  -149 <= e /\ m < 2 ^ 24 /\ (2 ^ 23 <= m \/ e = -149).

(** A mantissa of at least 24 bits at an exponent of at least -98 whose
    value exceeds 2^-75: what the square root of a positive binary32 number
    is, and what its square must be for the product not to underflow. *)
Definition heavy (m e : Z) : Prop :=
  2 ^ 23 <= m /\ -98 <= e /\ 2 ^ 23 + 1 <= m * 2 ^ (e + 98).

(** Every finite result of a multiplication or an addition of such results
    has an exponent of at least -149. *)
Definition expo_ok (a : float) : Prop :=
  match a with
  | S754_finite _ _ e => -149 <= e
  | _ => True
  end.

(** ** Concrete engines used below *)

Definition with_maxDistance (maxDist : float) (s : ForceSimulation)
  : ForceSimulation :=
  mkForceSimulation (nodes s) (links s) (distances s) (strengths s)
                    maxDist (velocityDecay s).

Definition f32_100 : float := F32.of_int 100.
(** [0.1f], the default of the constructor's [velDecay]. *)
Definition f32_tenth : float := S754_finite false 13421773 (-27).
Definition f32_half : float := S754_finite false 8388608 (-24).

Definition node_at_origin : Node := mkNode zero3 zero3 F32.one.
Definition node_at_unit_x : Node :=
  mkNode (mkVec3 F32.one F32.zero F32.zero) zero3 F32.one.

(** Two unit charges one unit apart on the x axis, no links, the
    constructor's default configuration. *)
Definition two_charges : ForceSimulation :=
  setNodes [node_at_origin; node_at_unit_x]
           (ForceSimulation_new f32_100 f32_tenth).

(** A length mismatch: one target distance, no link. *)
Definition surplus_distance : ForceSimulation :=
  setDistances [F32.one] two_charges.

(** A link whose target index equals the node count. *)
Definition dangling_link : ForceSimulation :=
  setStrengths [F32.one]
    (setDistances [F32.one] (setLinks [mkLink 0 2] two_charges)).

(** The same engine as [two_charges], built field by field. *)
Definition two_charges' : ForceSimulation :=
  mkForceSimulation [node_at_origin; node_at_unit_x] [] [] []
                    (F32.of_int 100) (F32.one / F32.of_int 10)%f32.

(** Two nodes five units apart, joined by a link of rest length 5 and
    stiffness 2; the charges are zero. *)
Definition f32_2 : float := F32.of_int 2.
Definition f32_5 : float := F32.of_int 5.

Definition link_at_rest : ForceSimulation :=
  mkForceSimulation
    [mkNode zero3 zero3 F32.zero;
     mkNode (mkVec3 (F32.of_int 3) (F32.of_int 4) F32.zero) zero3 F32.zero]
    [mkLink 0 1] [f32_5] [f32_2] f32_100 f32_tenth.

(** The same link stretched to rest length 3. *)
Definition link_stretched : ForceSimulation :=
  setDistances [F32.of_int 3] link_at_rest.

Definition unit_x : Vec3 := mkVec3 F32.one F32.zero F32.zero.
Definition minus_unit_x : Vec3 :=
  mkVec3 (S754_finite true 8388608 (-23)) F32.zero F32.zero.

(** The two unit charges of [two_charges] with any velocities and damping. *)
Definition unit_charges (v0 v1 : Vec3) (velDecay : float) : ForceSimulation :=
  mkForceSimulation [mkNode zero3 v0 F32.one; mkNode unit_x v1 F32.one]
                    [] [] [] f32_100 velDecay.

(** One node leaving the origin along x at unit speed, damping 0.5. *)
Definition moving_node : ForceSimulation :=
  single_node zero3 unit_x F32.one [] [] f32_100 f32_half.

(** ** Opposite numbers and vectors *)

(** [a] is the negation of [b]; two zeros count as opposite whatever their
    signs. *)
Definition opposite (a b : float) : Prop :=
  a = F32.opp b \/ (F32.is_zero a = true /\ F32.is_zero b = true).

Definition opposite3 (u v : Vec3) : Prop :=
  opposite (x u) (x v) /\ opposite (y u) (y v) /\ opposite (z u) (z v).

(** One node linked to itself. *)
Definition self_linked : ForceSimulation :=
  mkForceSimulation [node_at_unit_x] [mkLink 0 0] [f32_5] [f32_2]
                    f32_100 f32_tenth.

(** Two unit charges at the same place. *)
Definition coincident_charges : ForceSimulation :=
  setNodes [node_at_unit_x; node_at_unit_x]
           (ForceSimulation_new f32_100 f32_tenth).

(** An engine with a link and no node. *)
Definition link_without_nodes : ForceSimulation :=
  mkForceSimulation [] [mkLink 0 0] [f32_5] [f32_2] f32_100 f32_tenth.

(** A link whose source is -1. *)
Definition negative_source : ForceSimulation :=
  setStrengths [F32.one]
    (setDistances [F32.one] (setLinks [mkLink (-1) 0] two_charges)).

(** [two_charges] with the cutoff set to zero, and to their distance. *)
Definition cutoff_zero : ForceSimulation :=
  with_maxDistance F32.zero two_charges.

Definition cutoff_at_distance : ForceSimulation :=
  with_maxDistance F32.one two_charges.

(** The constraint arrays replaced, as by [setDistances] and [setStrengths]
    called one after the other. *)
Definition reconfigured (ds ss : list float) (s : ForceSimulation)
  : ForceSimulation :=
  setStrengths ss (setDistances ds s).

(** The outcome of a member function, seen on another object state. *)
Definition outcome_map {A : Type} (f : ForceSimulation -> ForceSimulation)
    (o : outcome A) : outcome A :=
  match o with
  | Ok a s => Ok a (f s)
  | OutOfBounds s => OutOfBounds (f s)
  | DivisionByZero s => DivisionByZero (f s)
  end.

(** The sign bit of a binary32 value; a NaN has none here. *)
Definition sign_bit (a : float) : option bool :=
  match a with
  | S754_zero s | S754_infinity s | S754_finite s _ _ => Some s
  | S754_nan => None
  end.

Definition sign_product (a b : option bool) : option bool :=
  match a, b with
  | Some sa, Some sb => Some (xorb sa sb)
  | _, _ => None
  end.

(** [a] has no sign, or the sign [b]. *)
Definition signed_as (a b : option bool) : Prop := a = None \/ a = b.

(** A finite value has a canonical mantissa and exponent. *)
Definition canonical (a : float) : Prop :=
  match a with
  | S754_finite _ m e => canon (Z.pos m) e
  | _ => True
  end.

(** A vector one of whose components is a NaN. *)
Definition has_nan (v : Vec3) : bool :=
  F32.is_nan (x v) || F32.is_nan (y v) || F32.is_nan (z v).

(** [link_at_rest] with its first node at a NaN position. *)
Definition node_nowhere : Node :=
  mkNode (mkVec3 S754_nan F32.zero F32.zero) zero3 F32.one.

Definition lost_charge : ForceSimulation :=
  setNodes [node_nowhere; node_at_unit_x] link_at_rest.

(** * Properties *)

(** ** The loops compute the functional reading *)

Lemma at_index_lt {A} (v : ForceSimulation -> list A) `{Inhabited A} i s :
  (i < length (v s))%nat -> at_index v i s = Ok (v s !!! i) s.
Proof.
  intros Hi. unfold at_index.
  now rewrite (list_lookup_lookup_total_lt (v s) i Hi).
Qed.

Lemma at_index_ge {A} (v : ForceSimulation -> list A) i s :
  (length (v s) <= i)%nat -> at_index v i s = OutOfBounds s.
Proof.
  intros Hi. unfold at_index. now rewrite (lookup_ge_None_2 (v s) i Hi).
Qed.

Lemma update_node_lt i f s :
  (i < length (nodes s))%nat ->
  update_node i f s
  = Ok tt (set_nodes s (<[i := f (nodes s !!! i)]> (nodes s))).
Proof.
  intros Hi. unfold update_node.
  now rewrite (list_lookup_lookup_total_lt (nodes s) i Hi).
Qed.

Lemma repulsion_inner_body_eq s i j force :
  (i < length (nodes s))%nat -> (j < length (nodes s))%nat ->
  repulsion_inner_body ieee_div i j force s
  = Ok (accumulate (maxDistance s) (nodes s) i force j) s.
Proof.
  intros Hi Hj. unfold repulsion_inner_body, accumulate.
  destruct (negb (i =? j)%nat); [|reflexivity].
  unfold bind. rewrite (at_index_lt nodes j s Hj), (at_index_lt nodes i s Hi).
  unfold read, node_distance, norm, displacement, in_range; simpl.
  destruct (_ && _); reflexivity.
Qed.

Lemma for_acc_repulsion s i :
  (i < length (nodes s))%nat ->
  forall count first force,
    (first + count <= length (nodes s))%nat ->
    for_acc (repulsion_inner_body ieee_div i) first count force s
    = Ok (fold_left (accumulate (maxDistance s) (nodes s) i)
                    (seq first count) force) s.
Proof.
  intros Hi count. induction count as [|c IH]; intros first force Hb.
  - reflexivity.
  - simpl. unfold bind at 1.
    rewrite repulsion_inner_body_eq by lia. apply IH. lia.
Qed.

Lemma repulsion_body_eq s i :
  (i < length (nodes s))%nat ->
  repulsion_body ieee_div i s
  = Ok tt (set_nodes s (repulsion_update (maxDistance s) (nodes s) i)).
Proof.
  intros Hi. unfold repulsion_body, bind, size_of.
  rewrite (for_acc_repulsion s i Hi) by lia.
  now rewrite update_node_lt.
Qed.

Lemma length_repulsion_update mx ns i :
  length (repulsion_update mx ns i) = length ns.
Proof. unfold repulsion_update. apply length_insert. Qed.

Lemma for_range_repulsion count : forall first s,
  (first + count <= length (nodes s))%nat ->
  for_range (repulsion_body ieee_div) first count s
  = Ok tt (set_nodes s (fold_left (repulsion_update (maxDistance s))
                                  (seq first count) (nodes s))).
Proof.
  induction count as [|c IH]; intros first s Hb.
  - simpl. unfold ret, set_nodes. now destruct s.
  - simpl. unfold bind at 1. rewrite repulsion_body_eq by lia.
    rewrite IH by (simpl; rewrite length_repulsion_update; lia).
    reflexivity.
Qed.

(** ** The repulsion phase reads positions it never writes *)

Lemma geometry_add_velocity f n : geometry (add_velocity f n) = geometry n.
Proof. reflexivity. Qed.

Lemma geometry_sub_velocity f n : geometry (sub_velocity f n) = geometry n.
Proof. reflexivity. Qed.

Lemma geometry_lookup_total (ns ns' : list Node) j :
  geometry <$> ns = geometry <$> ns' ->
  geometry (ns !!! j) = geometry (ns' !!! j).
Proof.
  intros Hg. rewrite !list_lookup_total_alt.
  assert (Hj : geometry <$> (ns !! j) = geometry <$> (ns' !! j))
    by (rewrite <- !list_lookup_fmap; now rewrite Hg).
  destruct (ns !! j), (ns' !! j); simpl in *; congruence.
Qed.

Lemma geometry_eq_inv a b :
  geometry a = geometry b -> position a = position b /\ charge a = charge b.
Proof. unfold geometry. intros [=]. auto. Qed.

Lemma accumulate_geometry mx (ns ns' : list Node) i force j :
  geometry <$> ns = geometry <$> ns' ->
  accumulate mx ns i force j = accumulate mx ns' i force j.
Proof.
  intros Hg. unfold accumulate, node_distance, pair_force, displacement.
  destruct (geometry_eq_inv _ _ (geometry_lookup_total ns ns' i Hg)) as [-> ->].
  destruct (geometry_eq_inv _ _ (geometry_lookup_total ns ns' j Hg)) as [-> ->].
  reflexivity.
Qed.

Lemma force_on_geometry mx (ns ns' : list Node) i :
  geometry <$> ns = geometry <$> ns' ->
  force_on mx ns i = force_on mx ns' i.
Proof.
  intros Hg. unfold force_on.
  assert (Hlen : length ns = length ns')
    by (rewrite <- (length_fmap geometry ns), Hg; apply length_fmap).
  rewrite Hlen. generalize (seq 0 (length ns')) zero3.
  intros js. induction js as [|j js IH]; intros acc; simpl; [reflexivity|].
  now rewrite (accumulate_geometry mx ns ns' i acc j Hg).
Qed.

Lemma geometry_repulsion_update mx ns i :
  geometry <$> repulsion_update mx ns i = geometry <$> ns.
Proof.
  unfold repulsion_update. rewrite list_fmap_insert.
  apply list_insert_id'. intros Hi. rewrite length_fmap in Hi.
  rewrite list_lookup_fmap, (list_lookup_lookup_total_lt ns i Hi).
  reflexivity.
Qed.

Lemma fold_repulsion_update mx (ns0 : list Node) count :
  forall first (ns : list Node),
    geometry <$> ns = geometry <$> ns0 ->
    (forall k, (first <= k)%nat -> ns !! k = ns0 !! k) ->
    forall k,
      fold_left (repulsion_update mx) (seq first count) ns !! k
      = if decide (k < first)%nat then ns !! k
        else if decide (k < first + count)%nat
             then add_velocity (force_on mx ns0 k) <$> ns0 !! k
             else ns0 !! k.
Proof.
  induction count as [|c IH]; intros first ns Hg Hrest k.
  - simpl. repeat case_decide; try lia; auto with lia.
  - simpl.
    rewrite IH.
    + unfold repulsion_update.
      destruct (decide (k = first)) as [->|Hne].
      * repeat case_decide; try lia.
        destruct (decide (first < length ns)%nat) as [Hlt|Hge].
        -- rewrite list_lookup_insert_eq by assumption.
           rewrite (force_on_geometry mx ns ns0 first Hg).
           rewrite <- Hrest by lia.
           now rewrite (list_lookup_lookup_total_lt ns first Hlt).
        -- rewrite list_insert_ge by lia.
           rewrite <- Hrest by lia.
           now rewrite (lookup_ge_None_2 ns first) by lia.
      * rewrite list_lookup_insert_ne by congruence.
        repeat case_decide; try lia; auto with lia.
    + rewrite geometry_repulsion_update. exact Hg.
    + intros k' Hk'. unfold repulsion_update.
      rewrite list_lookup_insert_ne by lia. apply Hrest. lia.
Qed.

Lemma fold_repulsion_update_all mx (ns : list Node) :
  fold_left (repulsion_update mx) (seq 0 (length ns)) ns = repulsed mx ns.
Proof.
  apply list_eq. intros k.
  rewrite (fold_repulsion_update mx ns (length ns) 0%nat ns) by auto.
  unfold repulsed. rewrite list_lookup_imap.
  repeat case_decide; try lia; [reflexivity|].
  now rewrite (lookup_ge_None_2 ns k) by lia.
Qed.

Lemma repulsion_phase_eq s :
  repulsion_phase ieee_div s
  = Ok tt (set_nodes s (repulsed (maxDistance s) (nodes s))).
Proof.
  unfold repulsion_phase, bind, size_of.
  rewrite for_range_repulsion by lia.
  now rewrite fold_repulsion_update_all.
Qed.

(** ** The link phase *)

Lemma link_in_bounds_true s i l :
  link_in_bounds s i l = true ->
  (i < length (distances s))%nat /\ (i < length (strengths s))%nat
  /\ (size_t_of_int (source l) < length (nodes s))%nat
  /\ (size_t_of_int (target l) < length (nodes s))%nat.
Proof.
  unfold link_in_bounds. rewrite !andb_true_iff, !Nat.ltb_lt. tauto.
Qed.

Lemma link_in_bounds_false s i l :
  link_in_bounds s i l = false ->
  (length (distances s) <= i)%nat \/ (length (strengths s) <= i)%nat
  \/ (length (nodes s) <= size_t_of_int (source l))%nat
  \/ (length (nodes s) <= size_t_of_int (target l))%nat.
Proof.
  unfold link_in_bounds. rewrite !andb_false_iff, !Nat.ltb_ge. tauto.
Qed.

Lemma length_link_update l td st ns :
  length (link_update l td st ns) = length ns.
Proof.
  unfold link_update. destruct (_ <? _)%f32; [|reflexivity].
  now rewrite !length_insert.
Qed.

Lemma link_body_eq s i :
  (i < length (links s))%nat ->
  link_in_bounds s i (links s !!! i) = true ->
  link_body ieee_div i s = Ok tt (set_nodes s (link_step s (nodes s) i)).
Proof.
  intros Hi Hb. apply link_in_bounds_true in Hb as (Hd & Hs & Hsrc & Htgt).
  unfold link_body, bind.
  rewrite (at_index_lt links i s Hi), (at_index_lt distances i s Hd),
    (at_index_lt strengths i s Hs), (at_index_lt nodes _ s Htgt),
    (at_index_lt nodes _ s Hsrc).
  unfold link_step, link_update, node_distance, norm, displacement,
    link_force; simpl.
  destruct (_ <? _)%f32.
  - unfold ieee_div, ret. rewrite update_node_lt by assumption.
    rewrite update_node_lt by (simpl; now rewrite length_insert).
    simpl. reflexivity.
  - unfold ret, set_nodes. now destruct s.
Qed.

Lemma link_body_out s i :
  (i < length (links s))%nat ->
  link_in_bounds s i (links s !!! i) = false ->
  link_body ieee_div i s = OutOfBounds s.
Proof.
  intros Hi Hb. unfold link_body, bind.
  rewrite (at_index_lt links i s Hi).
  destruct (decide (i < length (distances s))%nat) as [Hd|Hd];
    [rewrite (at_index_lt distances i s Hd)
    |now rewrite (at_index_ge distances i s) by lia].
  destruct (decide (i < length (strengths s))%nat) as [Hs|Hs];
    [rewrite (at_index_lt strengths i s Hs)
    |now rewrite (at_index_ge strengths i s) by lia].
  destruct (decide (size_t_of_int (target (links s !!! i))
                    < length (nodes s))%nat) as [Ht|Ht];
    [rewrite (at_index_lt nodes _ s Ht)
    |now rewrite (at_index_ge nodes _ s) by lia].
  destruct (decide (size_t_of_int (source (links s !!! i))
                    < length (nodes s))%nat) as [Hsr|Hsr];
    [|now rewrite (at_index_ge nodes _ s) by lia].
  apply link_in_bounds_false in Hb. lia.
Qed.

Lemma link_in_bounds_set_nodes s ns i l :
  length ns = length (nodes s) ->
  link_in_bounds (set_nodes s ns) i l = link_in_bounds s i l.
Proof. intros Hl. unfold link_in_bounds. simpl. now rewrite Hl. Qed.

Lemma set_nodes_set_nodes s ns ns' :
  set_nodes (set_nodes s ns) ns' = set_nodes s ns'.
Proof. reflexivity. Qed.

Lemma set_nodes_id s : set_nodes s (nodes s) = s.
Proof. now destruct s. Qed.

Lemma for_range_link s count : forall first ns,
  length ns = length (nodes s) ->
  (first + count <= length (links s))%nat ->
  (forall i, (first <= i < first + count)%nat ->
             link_in_bounds s i (links s !!! i) = true) ->
  for_range (link_body ieee_div) first count (set_nodes s ns)
  = Ok tt (set_nodes s (fold_left (link_step s) (seq first count) ns)).
Proof.
  induction count as [|c IH]; intros first ns Hl Hb Hall.
  - reflexivity.
  - simpl. unfold bind at 1.
    rewrite link_body_eq; simpl; [| lia |].
    + change (link_step (set_nodes s ns)) with (link_step s).
      apply IH.
      * unfold link_step. now rewrite length_link_update.
      * lia.
      * intros i Hi. apply Hall. lia.
    + rewrite link_in_bounds_set_nodes by assumption. apply Hall. lia.
Qed.

Lemma geometry_insert (ns : list Node) i n :
  geometry n = geometry (ns !!! i) ->
  geometry <$> <[i := n]> ns = geometry <$> ns.
Proof.
  intros Hn. rewrite list_fmap_insert.
  apply list_insert_id'. intros Hi. rewrite length_fmap in Hi.
  rewrite list_lookup_fmap, (list_lookup_lookup_total_lt ns i Hi).
  simpl. now rewrite Hn.
Qed.

Lemma geometry_link_update l td st ns :
  geometry <$> link_update l td st ns = geometry <$> ns.
Proof.
  unfold link_update. destruct (_ <? _)%f32; [|reflexivity].
  rewrite geometry_insert by apply geometry_sub_velocity.
  apply geometry_insert, geometry_add_velocity.
Qed.

Lemma geometry_linked_fold s js : forall ns,
  geometry <$> fold_left (link_step s) js ns = geometry <$> ns.
Proof.
  induction js as [|j js IH]; intros ns; simpl; [reflexivity|].
  rewrite IH. apply geometry_link_update.
Qed.

Lemma for_range_link_out s count : forall first ns,
  length ns = length (nodes s) ->
  (first + count <= length (links s))%nat ->
  (exists i, (first <= i < first + count)%nat /\
             link_in_bounds s i (links s !!! i) = false) ->
  exists ns', geometry <$> ns' = geometry <$> ns /\
    for_range (link_body ieee_div) first count (set_nodes s ns)
    = OutOfBounds (set_nodes s ns').
Proof.
  induction count as [|c IH]; intros first ns Hl Hb (i & Hi & Hout).
  - lia.
  - simpl. unfold bind at 1.
    destruct (link_in_bounds s first (links s !!! first)) eqn:Hfirst.
    + rewrite link_body_eq; simpl; [| lia |].
      * change (link_step (set_nodes s ns)) with (link_step s).
        destruct (IH (S first) (link_step s ns first)) as (ns' & Hg & Hrun).
        -- unfold link_step. now rewrite length_link_update.
        -- lia.
        -- exists i. split; [|assumption].
           destruct (decide (i = first)) as [->|]; [congruence|lia].
        -- exists ns'. split; [|assumption].
           rewrite Hg. apply geometry_link_update.
      * now rewrite link_in_bounds_set_nodes.
    + rewrite link_body_out; simpl; [| lia |].
      * now exists ns.
      * now rewrite link_in_bounds_set_nodes.
Qed.

Lemma links_in_bounds_true s :
  links_in_bounds s = true <->
  forall i, (i < length (links s))%nat ->
            link_in_bounds s i (links s !!! i) = true.
Proof.
  unfold links_in_bounds. rewrite forallb_forall. split.
  - intros H i Hi. apply H, in_seq. lia.
  - intros H i Hi. apply H. apply in_seq in Hi. lia.
Qed.

Lemma links_in_bounds_false s :
  links_in_bounds s = false ->
  exists i, (i < length (links s))%nat /\
            link_in_bounds s i (links s !!! i) = false.
Proof.
  unfold links_in_bounds.
  assert (Hin : forall i, In i (seq 0 (length (links s))) ->
                          (i < length (links s))%nat)
    by (intros i Hi; apply in_seq in Hi; lia).
  revert Hin. generalize (seq 0 (length (links s))).
  intros js. induction js as [|j js IH]; simpl; intros Hin Hf.
  - discriminate.
  - apply andb_false_iff in Hf as [Hf|Hf].
    + exists j. auto.
    + apply IH; auto.
Qed.

Lemma link_phase_eq s :
  links_in_bounds s = true ->
  link_phase ieee_div s = Ok tt (set_nodes s (linked s)).
Proof.
  intros Hb. unfold link_phase, bind, size_of.
  pose proof (for_range_link s (length (links s)) 0%nat (nodes s)) as H.
  rewrite set_nodes_id in H. apply H; auto.
  intros i Hi. apply links_in_bounds_true; [assumption|lia].
Qed.

Lemma link_phase_out s :
  links_in_bounds s = false ->
  exists ns', geometry <$> ns' = geometry <$> nodes s /\
              link_phase ieee_div s = OutOfBounds (set_nodes s ns').
Proof.
  intros Hb. unfold link_phase, bind, size_of.
  pose proof (for_range_link_out s (length (links s)) 0%nat (nodes s)) as H.
  rewrite set_nodes_id in H. apply H; auto.
  destruct (links_in_bounds_false s Hb) as (i & Hi & Hout).
  exists i. split; [lia|assumption].
Qed.

Lemma for_range_link_find s count : forall first ns,
  length ns = length (nodes s) ->
  (first + count <= length (links s))%nat ->
  for_range (link_body ieee_div) first count (set_nodes s ns)
  = match List.find (fun i => negb (link_in_bounds s i (links s !!! i)))
                    (seq first count) with
    | None =>
        Ok tt (set_nodes s (fold_left (link_step s) (seq first count) ns))
    | Some k =>
        OutOfBounds
          (set_nodes s (fold_left (link_step s) (seq first (k - first)) ns))
    end.
Proof.
  induction count as [|c IH]; intros first ns Hl Hb.
  - reflexivity.
  - simpl. unfold bind at 1.
    destruct (link_in_bounds s first (links s !!! first)) eqn:Hfirst; simpl.
    + rewrite link_body_eq; simpl; [| lia |].
      * change (link_step (set_nodes s ns)) with (link_step s).
        assert (Hlen : length (link_step s ns first) = length (nodes s))
          by (unfold link_step; now rewrite length_link_update).
        etransitivity;
          [exact (IH (S first) (link_step s ns first) Hlen ltac:(lia))|].
        destruct (List.find _ (seq (S first) c)) as [k|] eqn:Hfind;
          [|reflexivity].
        apply find_some in Hfind as [Hin _]. apply in_seq in Hin.
        replace (k - first)%nat with (S (k - S first)) by lia.
        reflexivity.
      * now rewrite link_in_bounds_set_nodes.
    + rewrite link_body_out; simpl; [| lia |].
      * now rewrite Nat.sub_diag.
      * now rewrite link_in_bounds_set_nodes.
Qed.

Lemma first_fault_in_bounds s :
  links_in_bounds s
  = match first_fault s with None => true | Some _ => false end.
Proof.
  unfold links_in_bounds, first_fault.
  induction (seq 0 (length (links s))) as [|i js IH]; [reflexivity|].
  simpl. destruct (link_in_bounds s i (links s !!! i)); simpl; auto.
Qed.

(** ** The whole step *)

Lemma length_repulsed mx ns : length (repulsed mx ns) = length ns.
Proof. apply length_imap. Qed.

Lemma links_in_bounds_set_nodes s ns :
  length ns = length (nodes s) ->
  links_in_bounds (set_nodes s ns) = links_in_bounds s.
Proof.
  intros Hl. unfold links_in_bounds. simpl.
  induction (seq 0 (length (links s))) as [|i js IH]; simpl; [reflexivity|].
  now rewrite IH, link_in_bounds_set_nodes.
Qed.

Lemma geometry_repulsed mx ns : geometry <$> repulsed mx ns = geometry <$> ns.
Proof.
  apply list_eq. intros k. unfold repulsed.
  rewrite !list_lookup_fmap, list_lookup_imap.
  now destruct (ns !! k).
Qed.

Lemma step_eq s : links_in_bounds s = true -> step s = Ok tt (stepped s).
Proof.
  intros Hb. unfold step, step_with, bind.
  rewrite repulsion_phase_eq.
  rewrite link_phase_eq
    by (rewrite links_in_bounds_set_nodes; auto using length_repulsed).
  reflexivity.
Qed.

Lemma step_out s :
  links_in_bounds s = false ->
  exists ns', geometry <$> ns' = geometry <$> nodes s
              /\ step s = OutOfBounds (set_nodes s ns').
Proof.
  intros Hb. unfold step, step_with, bind.
  rewrite repulsion_phase_eq.
  destruct (link_phase_out (set_nodes s (repulsed (maxDistance s) (nodes s))))
    as (ns' & Hg & Hrun).
  - rewrite links_in_bounds_set_nodes; auto using length_repulsed.
  - rewrite Hrun. exists ns'. split; [|reflexivity].
    rewrite Hg. simpl. apply geometry_repulsed.
Qed.

Lemma first_fault_set_nodes s ns :
  length ns = length (nodes s) ->
  first_fault (set_nodes s ns) = first_fault s.
Proof.
  intros Hl. unfold first_fault. simpl.
  induction (seq 0 (length (links s))) as [|i js IH]; [reflexivity|].
  simpl. now rewrite IH, link_in_bounds_set_nodes.
Qed.

(** [step] on every input: its result, or the object at the first access out
    of bounds. *)
Lemma step_spec s :
  step s = match first_fault s with
           | None => Ok tt (stepped s)
           | Some k => OutOfBounds (faulted s k)
           end.
Proof.
  unfold step, step_with, bind. rewrite repulsion_phase_eq.
  unfold link_phase, bind, size_of.
  set (s1 := set_nodes s (repulsed (maxDistance s) (nodes s))).
  pose proof (for_range_link_find s1 (length (links s1)) 0%nat (nodes s1)
                eq_refl (Nat.le_refl _)) as H.
  rewrite set_nodes_id in H. rewrite H.
  fold (first_fault s1).
  assert (Hff : first_fault s1 = first_fault s)
    by (apply first_fault_set_nodes, length_repulsed).
  rewrite Hff.
  destruct (first_fault s) as [k|]; [|reflexivity].
  now rewrite Nat.sub_0_r.
Qed.

Lemma geometry_charge (ns ns' : list Node) :
  geometry <$> ns = geometry <$> ns' -> charge <$> ns = charge <$> ns'.
Proof.
  intros Hg. apply (f_equal (fmap snd)) in Hg.
  now rewrite <- !list_fmap_compose in Hg.
Qed.

Lemma geometry_length (ns ns' : list Node) :
  geometry <$> ns = geometry <$> ns' -> length ns = length ns'.
Proof.
  intros Hg. apply (f_equal length) in Hg. now rewrite !length_fmap in Hg.
Qed.

Lemma charge_integrated d ns :
  charge <$> map (integrate d) ns = charge <$> ns.
Proof.
  induction ns as [|n ns IH]; [reflexivity|].
  change (charge n :: (charge <$> map (integrate d) ns)
          = charge n :: (charge <$> ns)).
  now rewrite IH.
Qed.

Lemma charge_stepped s : charge <$> nodes (stepped s) = charge <$> nodes s.
Proof.
  unfold stepped. simpl. rewrite charge_integrated.
  apply geometry_charge.
  unfold forced, linked. rewrite geometry_linked_fold. simpl.
  apply geometry_repulsed.
Qed.

Lemma frame_set_nodes s ns :
  charge <$> ns = charge <$> nodes s -> frame (set_nodes s ns) = frame s.
Proof.
  intros Hc. unfold frame. simpl. rewrite Hc.
  apply (f_equal length) in Hc. rewrite !length_fmap in Hc. now rewrite Hc.
Qed.

Lemma size_t_of_int_le k : 0 <= k -> (size_t_of_int k <= Z.to_nat k)%nat.
Proof.
  intros Hk. unfold size_t_of_int. apply Z2Nat.inj_le.
  - apply Z.mod_pos_bound. lia.
  - assumption.
  - apply Z.mod_le; lia.
Qed.

Lemma well_configured_in_bounds s :
  well_configured s = true -> links_in_bounds s = true.
Proof.
  unfold well_configured, lengths_match.
  rewrite !andb_true_iff, forallb_forall, !Nat.eqb_eq.
  intros (Hidx & Hd & Hs). apply links_in_bounds_true. intros i Hi.
  assert (Hin : In (links s !!! i) (links s)).
  { apply list_elem_of_In, list_elem_of_lookup. exists i.
    now apply list_lookup_lookup_total_lt. }
  specialize (Hidx _ Hin). unfold index_in_range in Hidx.
  rewrite !andb_true_iff, !Z.leb_le, !Z.ltb_lt in Hidx.
  destruct Hidx as (((Hs0 & Hs1) & Ht0) & Ht1).
  unfold link_in_bounds. rewrite !andb_true_iff, !Nat.ltb_lt.
  pose proof (size_t_of_int_le _ Hs0). pose proof (size_t_of_int_le _ Ht0).
  repeat split; lia.
Qed.

(** ** binary32 facts: comparison and the special values *)

Module F32Facts.

Lemma compare_cont_antisym (m1 m2 : positive) :
  Pos.compare_cont Eq m2 m1 = CompOpp (Pos.compare_cont Eq m1 m2).
Proof. apply (Pos.compare_antisym m1 m2). Qed.

Lemma SFcompare_antisym (a b : float) c :
  SFcompare a b = Some c -> SFcompare b a = Some (CompOpp c).
Proof.
  destruct a as [sa|sa| |sa ma ea], b as [sb|sb| |sb mb eb]; simpl;
    try discriminate; intros [= <-];
    try (destruct sa; reflexivity); try (destruct sb; reflexivity);
    try (destruct sa, sb; reflexivity).
  destruct sa, sb; try reflexivity;
    rewrite (Z.compare_antisym ea eb); destruct (ea ?= eb); simpl;
    try reflexivity; rewrite (compare_cont_antisym ma mb);
    now destruct (Pos.compare_cont Eq ma mb).
Qed.

Lemma SFcompare_refl (a : float) :
  F32.is_nan a = false -> SFcompare a a = Some Eq.
Proof.
  destruct a as [sa|sa| |sa ma ea]; simpl; try discriminate; intros _;
    try (now destruct sa).
  destruct sa; rewrite Z.compare_refl;
    change (Pos.compare_cont Eq ma ma) with (Pos.compare ma ma);
    now rewrite Pos.compare_refl.
Qed.

Lemma SFcompare_total (a b : float) :
  F32.is_nan a = false -> F32.is_nan b = false ->
  exists c, SFcompare a b = Some c.
Proof.
  destruct a, b; simpl; try discriminate; intros _ _; eauto.
Qed.

Lemma ltb_irrefl (a : float) : F32.ltb a a = false.
Proof.
  unfold F32.ltb, SFltb. destruct (F32.is_nan a) eqn:Hn.
  - now destruct a.
  - now rewrite SFcompare_refl.
Qed.

Lemma leb_not_ltb (a b : float) : F32.leb a b = true -> F32.ltb b a = false.
Proof.
  unfold F32.leb, F32.ltb, SFleb, SFltb.
  destruct (SFcompare a b) as [c|] eqn:Hc; [|discriminate].
  rewrite (SFcompare_antisym a b c Hc). now destruct c.
Qed.

Lemma not_leb_ltb (a b : float) :
  F32.is_nan a = false -> F32.is_nan b = false ->
  F32.leb a b = false -> F32.ltb b a = true.
Proof.
  intros Ha Hb. unfold F32.leb, F32.ltb, SFleb, SFltb.
  destruct (SFcompare_total a b Ha Hb) as [c Hc]. rewrite Hc.
  rewrite (SFcompare_antisym a b c Hc). now destruct c.
Qed.

Lemma leb_refl (a : float) : F32.is_nan a = false -> F32.leb a a = true.
Proof. intros Ha. unfold F32.leb, SFleb. now rewrite SFcompare_refl. Qed.

Lemma add_zero_r (a : float) :
  a <> S754_zero true -> (a + F32.zero)%f32 = a.
Proof. destruct a as [[]| | |]; unfold F32.add; simpl; congruence. Qed.

Lemma add_zero_is_zero (a : float) :
  F32.is_zero a = true -> (a + F32.zero)%f32 = F32.zero.
Proof. destruct a as [[]| | |]; try discriminate; reflexivity. Qed.

Lemma mul_zero_r (a b : float) :
  F32.is_finite a = true -> F32.is_zero b = true ->
  F32.is_zero (a * b)%f32 = true.
Proof. destruct a, b; try discriminate; reflexivity. Qed.

Lemma mul_zero_l (a b : float) :
  F32.is_zero a = true -> F32.is_finite b = true ->
  F32.is_zero (a * b)%f32 = true.
Proof. destruct a, b; try discriminate; reflexivity. Qed.

Lemma mul_comm (a b : float) : (a * b)%f32 = (b * a)%f32.
Proof.
  destruct a as [sa|sa| |sa ma ea], b as [sb|sb| |sb mb eb];
    unfold F32.mul; simpl;
    try reflexivity; try (now rewrite xorb_comm).
  now rewrite xorb_comm, Pos.mul_comm, Z.add_comm.
Qed.

Lemma sub_diag (a : float) :
  F32.is_finite a = true -> (a - a)%f32 = F32.zero.
Proof.
  destruct a as [[]| | |sa ma ea]; try discriminate; try reflexivity.
  intros _. unfold F32.sub; simpl. now rewrite Z.sub_diag.
Qed.

End F32Facts.

(** ** Rounding: digits, shifts and the shape of rounded results *)

Lemma digits2_pos_size (p : positive) : digits2_pos p = Pos.size p.
Proof. induction p; simpl; congruence. Qed.

Lemma Zdigits2_log2 (m : Z) : 0 < m -> Zdigits2 m = Z.log2 m + 1.
Proof.
  destruct m as [|p|p]; try lia. intros _. simpl.
  rewrite digits2_pos_size. destruct p; simpl; lia.
Qed.

Lemma Zdigits2_bounds (m : Z) :
  0 < m -> 2 ^ (Zdigits2 m - 1) <= m < 2 ^ Zdigits2 m.
Proof.
  intros Hm. rewrite (Zdigits2_log2 m Hm).
  replace (Z.log2 m + 1 - 1) with (Z.log2 m) by lia.
  replace (Z.log2 m + 1) with (Z.succ (Z.log2 m)) by lia.
  now apply Z.log2_spec.
Qed.

Lemma Zdigits2_nonneg (m : Z) : 0 <= Zdigits2 m.
Proof. destruct m; simpl; lia. Qed.

Lemma iter_pos_nat {A} (f : A -> A) (p : positive) (a : A) :
  SpecFloat.iter_pos f p a = Nat.iter (Pos.to_nat p) f a.
Proof.
  revert a. induction p as [p IH|p IH|]; intros a.
  - change (SpecFloat.iter_pos f p~1 a)
      with (SpecFloat.iter_pos f p (SpecFloat.iter_pos f p (f a))).
    rewrite !IH, Pos2Nat.inj_xI.
    rewrite <- Nat.iter_add, <- Nat.iter_succ_r. f_equal. lia.
  - change (SpecFloat.iter_pos f p~0 a)
      with (SpecFloat.iter_pos f p (SpecFloat.iter_pos f p a)).
    rewrite !IH, Pos2Nat.inj_xO. rewrite <- Nat.iter_add. f_equal. lia.
  - reflexivity.
Qed.

Lemma shr_1_spec (m : Z) (r s : bool) :
  0 <= m ->
  shr_1 (Build_shr_record m r s)
  = Build_shr_record (m / 2) (Z.odd m) (r || s).
Proof.
  intros Hm. destruct m as [|p|p]; [reflexivity| |lia].
  destruct p as [p|p|]; simpl; try reflexivity.
  - f_equal. rewrite Pos2Z.inj_xI. symmetry. 
    replace (2 * Z.pos p + 1) with (1 + Z.pos p * 2) by lia.
    rewrite Z.div_add by lia. reflexivity.
  - f_equal. rewrite Pos2Z.inj_xO. symmetry.
    replace (2 * Z.pos p) with (Z.pos p * 2) by lia.
    now rewrite Z.div_mul by lia.
Qed.

(** After [n + 1] one-bit shifts: the quotient, the last bit shifted out
    and whether anything nonzero was shifted out before it. *)
Lemma iter_shr_1_spec (n : nat) (m : Z) (r s : bool) :
  0 <= m ->
  Nat.iter (S n) shr_1 (Build_shr_record m r s)
  = Build_shr_record (m / 2 ^ Z.of_nat (S n))
                     (Z.testbit m (Z.of_nat n))
                     (r || s || negb (m mod 2 ^ Z.of_nat n =? 0)).
Proof.
  intros Hm. induction n as [|n IH].
  - unfold Nat.iter; cbn [nat_rect]. rewrite shr_1_spec by assumption.
    change (Z.of_nat 1) with 1. change (Z.of_nat 0) with 0.
    rewrite Z.pow_1_r, Z.pow_0_r, Z.mod_1_r. simpl (negb _).
    rewrite orb_false_r. now rewrite Z.bit0_odd.
  - rewrite Nat.iter_succ, IH.
    rewrite shr_1_spec by (apply Z.div_pos; lia).
    f_equal.
    + rewrite Z.div_div by lia. f_equal.
      rewrite (Nat2Z.inj_succ (S n)), Z.pow_succ_r by lia. lia.
    + rewrite (Nat2Z.inj_succ n).
      rewrite <- Z.bit0_odd, <- Z.shiftr_div_pow2 by lia.
      rewrite Z.shiftr_spec by lia. f_equal.
    + rewrite (Nat2Z.inj_succ n).
      rewrite Z.testbit_odd, Z.shiftr_div_pow2 by lia.
      assert (H2 : 0 < 2 ^ Z.of_nat n) by (apply Z.pow_pos_nonneg; lia).
      assert (Hmod : m mod 2 ^ Z.succ (Z.of_nat n)
                     = m mod 2 ^ Z.of_nat n
                       + 2 ^ Z.of_nat n * ((m / 2 ^ Z.of_nat n) mod 2)).
      { rewrite Z.pow_succ_r by lia.
        rewrite (Z.mul_comm 2). rewrite Z.rem_mul_r by lia. reflexivity. }
      rewrite Hmod, Zmod_odd.
      pose proof (Z.mod_pos_bound m (2 ^ Z.of_nat n) H2).
      destruct (Z.odd (m / 2 ^ Z.of_nat n)).
      * destruct (Z.eqb_spec (m mod 2 ^ Z.of_nat n + 2 ^ Z.of_nat n * 1) 0);
          [lia|]. simpl. now rewrite !orb_true_r.
      * rewrite Z.mul_0_r, Z.add_0_r. reflexivity.
Qed.

Lemma shr_record_of_loc_eta (m : Z) (l : location) :
  exists r s, shr_record_of_loc m l = Build_shr_record m r s
              /\ (r || s) = loc_inexact l.
Proof. destruct l as [|[]]; simpl; eauto. Qed.

Section Rounding.

Variables prec emax : Z.

Lemma shr_fexp_spec (m e : Z) (l : location) :
  0 <= m ->
  let n := fexp prec emax (Zdigits2 m + e) - e in
  shr_fexp prec emax m e l
  = if 0 <? n
    then (Build_shr_record (m / 2 ^ n) (Z.testbit m (n - 1))
            (loc_inexact l || negb (m mod 2 ^ (n - 1) =? 0)), e + n)
    else (shr_record_of_loc m l, e).
Proof.
  intros Hm n. unfold shr_fexp. fold n.
  destruct n as [|p|p] eqn:Hn; simpl (0 <? _); try reflexivity.
  unfold shr. rewrite iter_pos_nat.
  destruct (Pos2Nat.is_succ p) as [k Hk]. rewrite Hk.
  destruct (shr_record_of_loc_eta m l) as (r & s & -> & <-).
  rewrite iter_shr_1_spec by assumption.
  assert (HkZ : Z.of_nat (S k) = Z.pos p)
    by (rewrite <- Hk; apply positive_nat_Z).
  rewrite HkZ.
  replace (Z.of_nat k) with (Z.pos p - 1) by lia.
  reflexivity.
Qed.

Lemma shr_fexp_nonneg (m e : Z) (l : location) :
  0 <= m -> 0 <= shr_m (fst (shr_fexp prec emax m e l)).
Proof.
  intros Hm. rewrite shr_fexp_spec by assumption. cbv zeta.
  destruct (Z.ltb_spec 0 (fexp prec emax (Zdigits2 m + e) - e)); simpl.
  - apply Z.div_pos; [assumption|]. apply Z.pow_pos_nonneg; lia.
  - destruct l as [|[]]; assumption.
Qed.

Lemma round_nearest_even_bounds (m : Z) (l : location) :
  m <= round_nearest_even m l <= m + 1.
Proof. destruct l as [|[]]; simpl; try lia. destruct (Z.even m); lia. Qed.

Lemma shr_fexp_exponent (m e : Z) (l : location) :
  0 <= m ->
  snd (shr_fexp prec emax m e l) = Z.max e (fexp prec emax (Zdigits2 m + e)).
Proof.
  intros Hm. rewrite shr_fexp_spec by assumption. cbv zeta.
  destruct (Z.ltb_spec 0 (fexp prec emax (Zdigits2 m + e) - e)); simpl.
  all: lia.
Qed.

Lemma fexp_ge_emin (k : Z) : emin prec emax <= fexp prec emax k.
Proof. unfold fexp. lia. Qed.

(** The shape of every rounded result: the sign asked for, never a NaN, and
    an exponent within the format's range. *)
Lemma binary_round_aux_cases (sx : bool) (mx ex : Z) (lx : location) :
  0 <= mx ->
  match binary_round_aux prec emax sx mx ex lx with
  | S754_zero s | S754_infinity s => s = sx
  | S754_finite s _ e => s = sx /\ emin prec emax <= e <= emax - prec
  | S754_nan => False
  end.
Proof.
  intros Hm. unfold binary_round_aux.
  pose proof (shr_fexp_nonneg mx ex lx Hm) as H1.
  pose proof (shr_fexp_exponent mx ex lx Hm) as E1.
  destruct (shr_fexp prec emax mx ex lx) as [mrs1 e1]. simpl in H1, E1.
  set (m2 := round_nearest_even (shr_m mrs1) (loc_of_shr_record mrs1)).
  assert (Hm2 : 0 <= m2)
    by (pose proof (round_nearest_even_bounds (shr_m mrs1)
                      (loc_of_shr_record mrs1)); unfold m2; lia).
  pose proof (shr_fexp_nonneg m2 e1 loc_Exact Hm2) as H2.
  pose proof (shr_fexp_exponent m2 e1 loc_Exact Hm2) as E2.
  destruct (shr_fexp prec emax m2 e1 loc_Exact) as [mrs2 e2]. simpl in H2, E2.
  destruct (shr_m mrs2) as [|p|p]; [reflexivity| |lia].
  destruct (Z.leb_spec e2 (emax - prec)); [|reflexivity].
  split; [reflexivity|]. split; [|assumption].
  pose proof (fexp_ge_emin (Zdigits2 mx + ex)). lia.
Qed.

End Rounding.

(** ** Distances are never negative, and never NaN between finite points *)

Lemma round_sign (sx : bool) (mx ex : Z) (lx : location) :
  0 <= mx ->
  F32.is_nonneg (binary_round_aux F32.prec F32.emax sx mx ex lx) = negb sx
  \/ F32.is_zero (binary_round_aux F32.prec F32.emax sx mx ex lx) = true.
Proof.
  intros Hm.
  pose proof (binary_round_aux_cases F32.prec F32.emax sx mx ex lx Hm) as H.
  destruct (binary_round_aux _ _ _ _ _ _) as [s|s| |s m e]; simpl;
    [right; reflexivity | left; now subst | contradiction
    | left; destruct H as [-> _]; reflexivity].
Qed.

Lemma round_not_nan (sx : bool) (mx ex : Z) (lx : location) :
  0 <= mx ->
  F32.is_nan (binary_round_aux F32.prec F32.emax sx mx ex lx) = false.
Proof.
  intros Hm.
  pose proof (binary_round_aux_cases F32.prec F32.emax sx mx ex lx Hm) as H.
  now destruct (binary_round_aux _ _ _ _ _ _).
Qed.

Lemma round_nonneg (mx ex : Z) (lx : location) :
  0 <= mx ->
  F32.is_nonneg (binary_round_aux F32.prec F32.emax false mx ex lx) = true.
Proof.
  intros Hm.
  pose proof (binary_round_aux_cases F32.prec F32.emax false mx ex lx Hm) as H.
  destruct (binary_round_aux _ _ _ _ _ _) as [s|s| |s m e]; simpl;
    [reflexivity | now subst | contradiction | now destruct H as [-> _]].
Qed.

Lemma normalize_not_nan (m e : Z) (sz : bool) :
  F32.is_nan (binary_normalize F32.prec F32.emax m e sz) = false.
Proof.
  destruct m as [|p|p]; simpl; [reflexivity| |];
    unfold binary_round; destruct (shl_align _ _ _) as [mz ez];
    apply round_not_nan; lia.
Qed.

Lemma normalize_nonneg (m e : Z) (sz : bool) :
  0 <= m -> F32.is_nonneg (binary_normalize F32.prec F32.emax m e sz) = true.
Proof.
  destruct m as [|p|p]; simpl; intros Hm; [reflexivity| |lia].
  unfold binary_round; destruct (shl_align _ _ _) as [mz ez].
  apply round_nonneg; lia.
Qed.

Lemma mul_self_nonneg (a : float) :
  F32.is_nan a = false -> F32.is_nonneg (a * a)%f32 = true.
Proof.
  destruct a as [s|s| |s m e]; simpl; try discriminate; intros _;
    try (now destruct s).
  unfold F32.mul, SFmul. rewrite xorb_nilpotent. apply round_nonneg. lia.
Qed.

Lemma add_nonneg (a b : float) :
  F32.is_nonneg a = true -> F32.is_nonneg b = true ->
  F32.is_nonneg (a + b)%f32 = true.
Proof.
  destruct a as [[]|[]| |[] ma ea], b as [[]|[]| |[] mb eb];
    try discriminate; try reflexivity; intros _ _.
  unfold F32.add, SFadd, cond_Zopp. apply normalize_nonneg. lia.
Qed.

Lemma sub_finite_not_nan (a b : float) :
  F32.is_finite a = true -> F32.is_finite b = true ->
  F32.is_nan (a - b)%f32 = false.
Proof.
  destruct a as [sa|sa| |sa ma ea], b as [sb|sb| |sb mb eb];
    try discriminate; intros _ _; try reflexivity.
  - now destruct sa, sb.
  - unfold F32.sub, SFsub. apply normalize_not_nan.
Qed.

Lemma sqrtrem_nonneg (n : Z) : 0 <= n -> 0 <= fst (Z.sqrtrem n).
Proof.
  intros Hn. pose proof (Z.sqrtrem_spec n Hn) as H.
  destruct (Z.sqrtrem n) as [q r]. simpl. lia.
Qed.

Lemma sqrt_core_nonneg (m : positive) (e : Z) :
  0 <= fst (fst (SFsqrt_core_binary F32.prec F32.emax (Z.pos m) e)).
Proof.
  unfold SFsqrt_core_binary.
  set (s := e - 2 * _).
  set (m' := match s with Z0 => _ | Z.pos _ => _ | Z.neg _ => _ end).
  assert (Hm' : 0 <= m').
  { unfold m'. destruct s; try lia. apply Z.shiftl_nonneg. lia. }
  pose proof (sqrtrem_nonneg m' Hm').
  destruct (Z.sqrtrem m') as [q r]. assumption.
Qed.

Lemma sqrt_nan_or_nonneg (a : float) :
  F32.is_nan (F32.sqrt a) = true \/ F32.is_nonneg (F32.sqrt a) = true.
Proof.
  destruct a as [s|[]| |[] m e]; simpl; auto.
  right. unfold F32.sqrt; simpl.
  pose proof (sqrt_core_nonneg m e) as Hq.
  destruct (SFsqrt_core_binary _ _ _ _) as [[q e'] l].
  now apply round_nonneg.
Qed.

Lemma sqrt_nonneg (a : float) :
  F32.is_nonneg a = true -> F32.is_nonneg (F32.sqrt a) = true.
Proof.
  intros Ha. destruct (sqrt_nan_or_nonneg a) as [Hn|]; [|assumption].
  destruct a as [s|[]| |[] m e]; simpl in *; try discriminate.
  unfold F32.sqrt in Hn; simpl in Hn.
  pose proof (sqrt_core_nonneg m e) as Hq.
  destruct (SFsqrt_core_binary _ _ _ _) as [[q e'] l].
  now rewrite round_not_nan in Hn.
Qed.

Lemma nonneg_not_nan (a : float) :
  F32.is_nonneg a = true -> F32.is_nan a = false.
Proof. now destruct a. Qed.

Lemma ltb_zero_nonneg (a : float) :
  F32.is_nonneg a = true -> (F32.zero <? a)%f32 = negb (F32.is_zero a).
Proof. destruct a as [s|[]| |[] m e]; simpl; try discriminate; reflexivity. Qed.

Lemma ltb_zero_nan (a : float) :
  F32.is_nan a = true -> (F32.zero <? a)%f32 = false.
Proof. destruct a; simpl; try discriminate; reflexivity. Qed.

(** The guard [distance > 0] holds exactly when the computed distance is
    neither a zero nor a NaN. *)
Lemma ltb_zero_norm (v : Vec3) :
  (F32.zero <? norm v)%f32
  = negb (F32.is_zero (norm v)) && negb (F32.is_nan (norm v)).
Proof.
  unfold norm.
  destruct (sqrt_nan_or_nonneg (x v * x v + y v * y v + z v * z v)%f32)
    as [Hn|Hp].
  - rewrite (ltb_zero_nan _ Hn), Hn. now rewrite andb_false_r.
  - rewrite (ltb_zero_nonneg _ Hp), (nonneg_not_nan _ Hp).
    now rewrite andb_true_r.
Qed.

Lemma norm_nonneg (v : Vec3) :
  F32.is_nan (x v) = false -> F32.is_nan (y v) = false ->
  F32.is_nan (z v) = false -> F32.is_nonneg (norm v) = true.
Proof.
  intros Hx Hy Hz. unfold norm.
  apply sqrt_nonneg, add_nonneg; [apply add_nonneg|]; now apply mul_self_nonneg.
Qed.

Lemma node_distance_nonneg (ni nj : Node) :
  finite3 (position ni) = true -> finite3 (position nj) = true ->
  F32.is_nonneg (node_distance ni nj) = true.
Proof.
  unfold finite3. rewrite !andb_true_iff.
  intros ((Hix & Hiy) & Hiz) ((Hjx & Hjy) & Hjz).
  unfold node_distance. apply norm_nonneg; simpl;
    now apply sub_finite_not_nan.
Qed.

Lemma eqb_zero (a : float) : F32.eqb a F32.zero = F32.is_zero a.
Proof. destruct a as [s|[]| |[] m e]; reflexivity. Qed.

Lemma guard_as_worded (maxDist d : float) :
  F32.is_nonneg d = true -> F32.is_nan maxDist = false ->
  in_range maxDist d = negb (F32.eqb d F32.zero || F32.leb maxDist d).
Proof.
  intros Hd Hmx. unfold in_range.
  rewrite eqb_zero, (ltb_zero_nonneg d Hd), negb_orb. f_equal.
  destruct (F32.leb maxDist d) eqn:Hle.
  - now apply F32Facts.leb_not_ltb.
  - apply F32Facts.not_leb_ltb; auto using nonneg_not_nan.
Qed.

Lemma pair_force_as_worded (ni nj : Node) :
  let disp := displacement ni nj in
  let d := norm disp in
  let magnitude := (charge ni * charge nj / (d * d))%f32 in
  pair_force ni nj
  = (mkVec3 (magnitude * (x disp / d)) (magnitude * (y disp / d))
            (magnitude * (z disp / d)))%f32.
Proof.
  cbv zeta. unfold pair_force.
  f_equal; apply F32Facts.mul_comm.
Qed.

Lemma link_force_as_worded (st td : float) (nsrc ntgt : Node) :
  let disp := displacement nsrc ntgt in
  let d := norm disp in
  let force := (st * (d - td))%f32 in
  link_force st td nsrc ntgt
  = (mkVec3 (force * (x disp / d)) (force * (y disp / d))
            (force * (z disp / d)))%f32.
Proof. cbv zeta. unfold link_force. f_equal; apply F32Facts.mul_comm. Qed.

Lemma force_at_rest (st d : float) :
  F32.is_finite st = true -> F32.is_finite d = true ->
  F32.is_zero (st * (d - d))%f32 = true.
Proof.
  intros Hst Hd. rewrite F32Facts.sub_diag by assumption.
  now apply F32Facts.mul_zero_r.
Qed.

(** ** One node, no link *)

Lemma add_zero_same (a : float) : same_number (a + F32.zero)%f32 a.
Proof.
  destruct a as [[]| | |]; [right|left|left|left|left]; simpl; auto.
Qed.

Lemma vadd_zero3_same (v : Vec3) : same_vector (vadd v zero3) v.
Proof. repeat split; apply add_zero_same. Qed.

Lemma add_zero_finite (a : float) :
  F32.is_finite a = true -> F32.is_finite (a + F32.zero)%f32 = true.
Proof. now destruct a as [[]| | |]. Qed.

Lemma forced_single p v c ds ss mx decay :
  forced (single_node p v c ds ss mx decay) = [mkNode p (vadd v zero3) c].
Proof. reflexivity. Qed.

Lemma step_single p v c ds ss mx decay :
  step (single_node p v c ds ss mx decay)
  = Ok tt (single_node (vadd p (vadd v zero3)) (vscale (vadd v zero3) decay)
             c ds ss mx decay).
Proof. now rewrite step_eq. Qed.

(** ** The square of a positive distance is not zero *)

Lemma fexp32 (k : Z) : fexp F32.prec F32.emax k = Z.max (k - 24) (-149).
Proof. reflexivity. Qed.

Lemma digits_ge (m k : Z) : 0 < m -> 2 ^ (k - 1) <= m -> k <= Zdigits2 m.
Proof.
  intros Hm Hk. destruct (Zdigits2_bounds m Hm) as [_ Hu].
  pose proof (Zdigits2_nonneg m).
  destruct (Z.le_gt_cases k (Zdigits2 m)) as [|Hlt]; [assumption|].
  assert (2 ^ Zdigits2 m <= 2 ^ (k - 1)) by (apply Z.pow_le_mono_r; lia).
  lia.
Qed.

Lemma digits_le (m k : Z) : 0 < m -> m < 2 ^ k -> Zdigits2 m <= k.
Proof.
  intros Hm Hk. destruct (Zdigits2_bounds m Hm) as [Hl _].
  destruct (Z.le_gt_cases (Zdigits2 m) k) as [|Hlt]; [assumption|].
  assert (0 <= k).
  { destruct (Z.lt_ge_cases k 0) as [Hneg|]; [|assumption].
    rewrite Z.pow_neg_r in Hk by assumption. lia. }
  assert (2 ^ k <= 2 ^ (Zdigits2 m - 1)) by (apply Z.pow_le_mono_r; lia).
  lia.
Qed.

Lemma div_pow2_lower (m a b : Z) :
  0 <= a -> 0 <= b -> 2 ^ (a + b) <= m -> 2 ^ a <= m / 2 ^ b.
Proof.
  intros Ha Hb Hm. apply Z.div_le_lower_bound.
  - apply Z.pow_pos_nonneg; lia.
  - rewrite <- Z.pow_add_r by lia. now rewrite Z.add_comm.
Qed.


Lemma heavy_weaken (m m' e : Z) : heavy m e -> m <= m' -> heavy m' e.
Proof.
  intros (Hm & He & Hw) Hle. repeat split; try lia.
  assert (0 < 2 ^ (e + 98)) by (apply Z.pow_pos_nonneg; lia). nia.
Qed.

Lemma heavy_shr_fexp (m e : Z) (l : location) :
  heavy m e ->
  heavy (shr_m (fst (shr_fexp F32.prec F32.emax m e l)))
        (snd (shr_fexp F32.prec F32.emax m e l)).
Proof.
  intros (Hm & He & Hw).
  assert (Hpos : 0 < m) by lia.
  pose proof (digits_ge m 24 Hpos ltac:(simpl; lia)) as Hd.
  destruct (Zdigits2_bounds m Hpos) as [Hlo _].
  rewrite shr_fexp_spec by lia. cbv zeta. rewrite fexp32.
  destruct (Z.ltb_spec 0 (Z.max (Zdigits2 m + e - 24) (-149) - e)) as [Hn|Hn];
    simpl.
  - replace (Z.max (Zdigits2 m + e - 24) (-149) - e) with (Zdigits2 m - 24)
      in * by lia.
    assert (H23 : 2 ^ 23 <= m / 2 ^ (Zdigits2 m - 24)).
    { apply div_pow2_lower; try lia.
      replace (23 + (Zdigits2 m - 24)) with (Zdigits2 m - 1) by lia.
      assumption. }
    repeat split; try lia.
    assert (2 ^ 1 <= 2 ^ (e + (Zdigits2 m - 24) + 98))
      by (apply Z.pow_le_mono_r; lia).
    change (2 ^ 1) with 2 in *. nia.
  - destruct l as [|[]]; simpl; repeat split; assumption.
Qed.

Lemma heavy_round (sx : bool) (q e : Z) (l : location) :
  heavy q e ->
  match binary_round_aux F32.prec F32.emax sx q e l with
  | S754_finite _ m e' => heavy (Z.pos m) e'
  | S754_infinity _ => True
  | S754_zero _ | S754_nan => False
  end.
Proof.
  intros Hq. unfold binary_round_aux.
  pose proof (heavy_shr_fexp q e l Hq) as H1.
  destruct (shr_fexp F32.prec F32.emax q e l) as [mrs1 e1]. simpl in H1.
  set (m2 := round_nearest_even (shr_m mrs1) (loc_of_shr_record mrs1)).
  assert (H2 : heavy m2 e1).
  { apply (heavy_weaken (shr_m mrs1)); [assumption|].
    apply round_nearest_even_bounds. }
  pose proof (heavy_shr_fexp m2 e1 loc_Exact H2) as H3.
  destruct (shr_fexp F32.prec F32.emax m2 e1 loc_Exact) as [mrs2 e2].
  simpl in H3.
  destruct (shr_m mrs2) as [|p|p].
  - destruct H3 as (H3 & _). simpl in H3. lia.
  - now destruct (e2 <=? F32.emax - F32.prec).
  - destruct H3 as (H3 & _). simpl in H3. lia.
Qed.

(** The square root of a positive number whose exponent is at least -149. *)
Lemma sqrt_core_heavy (m : positive) (e : Z) :
  -149 <= e ->
  heavy (fst (fst (SFsqrt_core_binary F32.prec F32.emax (Z.pos m) e)))
        (snd (fst (SFsqrt_core_binary F32.prec F32.emax (Z.pos m) e))).
Proof.
  intros He. unfold SFsqrt_core_binary. rewrite fexp32.
  set (d := Zdigits2 (Z.pos m)).
  assert (Hd1 : 1 <= d) by (apply digits_ge; simpl; lia).
  destruct (Zdigits2_bounds (Z.pos m) ltac:(lia)) as [Hlo Hhi].
  fold d in Hlo, Hhi.
  set (h := Z.div2 (d + e + 1)).
  assert (Hh : 2 * h <= d + e + 1 <= 2 * h + 1).
  { unfold h. rewrite Z.div2_div.
    pose proof (Z.div_mod (d + e + 1) 2 ltac:(lia)).
    pose proof (Z.mod_pos_bound (d + e + 1) 2 ltac:(lia)). lia. }
  assert (Hg : 2 * Z.div2 e <= e <= 2 * Z.div2 e + 1).
  { rewrite Z.div2_div.
    pose proof (Z.div_mod e 2 ltac:(lia)).
    pose proof (Z.mod_pos_bound e 2 ltac:(lia)). lia. }
  set (e' := Z.min (Z.max (h - 24) (-149)) (Z.div2 e)).
  assert (He' : -98 <= e' /\ e' <= h - 24 /\ 2 * e' <= e) by (unfold e'; lia).
  set (s := e - 2 * e').
  assert (Hs : 0 <= s) by (unfold s; lia).
  set (m' := match s with Z0 => Z.pos m | Z.pos _ => Z.shiftl (Z.pos m) s
                     | Z.neg _ => 0 end).
  assert (Hm' : m' = Z.pos m * 2 ^ s).
  { unfold m'. clearbody s. destruct s as [|p|p]; [|..|lia].
    - change (2 ^ 0) with 1. lia.
    - apply Z.shiftl_mul_pow2. lia. }
  assert (Hbig : 2 ^ (d + s - 1) <= m').
  { rewrite Hm'. replace (d + s - 1) with (d - 1 + s) by lia.
    rewrite Z.pow_add_r by lia. apply Z.mul_le_mono_nonneg_r; [|assumption].
    apply Z.pow_nonneg. lia. }
  assert (Hm'0 : 0 <= m') by (rewrite Hm'; apply Z.mul_nonneg_nonneg;
                              [lia|apply Z.pow_nonneg; lia]).
  pose proof (Z.sqrtrem_spec m' Hm'0) as Hsq.
  destruct (Z.sqrtrem m') as [q r]. simpl.
  destruct Hsq as [Hq Hr].
  assert (H46 : 2 ^ 46 <= m').
  { apply Z.le_trans with (2 ^ (d + s - 1)); [|assumption].
    apply Z.pow_le_mono_r; unfold s; lia. }
  assert (Hq23 : 2 ^ 23 <= q).
  { change (2 ^ 46) with 70368744177664 in H46.
    change (2 ^ 23) with 8388608. nia. }
  repeat split; try lia.
  destruct (Z.eq_dec e' (-98)) as [E|E].
  - rewrite E. change (2 ^ (-98 + 98)) with 1.
    assert (H47 : 2 ^ 47 <= m').
    { apply Z.le_trans with (2 ^ (d + s - 1)); [|assumption].
      apply Z.pow_le_mono_r; unfold s; lia. }
    change (2 ^ 47) with 140737488355328 in H47.
    change (2 ^ 23) with 8388608. nia.
  - assert (2 ^ 1 <= 2 ^ (e' + 98)) by (apply Z.pow_le_mono_r; lia).
    change (2 ^ 1) with 2 in *. nia.
Qed.

Lemma round_up_from_below_half_excluded (M E : Z) :
  0 < M -> -196 <= E -> 2 ^ 46 < M * 2 ^ (E + 196) ->
  1 <= round_nearest_even
         (shr_m (fst (shr_fexp F32.prec F32.emax M E loc_Exact)))
         (loc_of_shr_record (fst (shr_fexp F32.prec F32.emax M E loc_Exact)))
  /\ -149 <= snd (shr_fexp F32.prec F32.emax M E loc_Exact).
Proof.
  intros HM HE Hw.
  rewrite shr_fexp_spec by lia. cbv zeta. rewrite fexp32.
  set (d := Zdigits2 M).
  destruct (Zdigits2_bounds M HM) as [Hlo Hhi]. fold d in Hlo, Hhi.
  assert (Hd1 : 1 <= d) by (apply digits_ge; [assumption|simpl; lia]).
  set (n := Z.max (d + E - 24) (-149) - E).
  destruct (Z.ltb_spec 0 n) as [Hn|Hn]; simpl; [|lia].
  split; [|lia].
  assert (Hp : 0 < 2 ^ n) by (apply Z.pow_pos_nonneg; lia).
  destruct (Z.le_gt_cases (2 ^ n) M) as [Hge|Hlt].
  - assert (1 <= M / 2 ^ n)
      by (apply Z.div_le_lower_bound; lia).
    match goal with
    | |- 1 <= round_nearest_even ?a ?l =>
        pose proof (round_nearest_even_bounds a l)
    end.
    lia.
  - assert (Hdn : d <= n) by (apply digits_le; assumption).
    assert (Hn149 : n = -149 - E) by lia.
    assert (Hn47 : n <= 47) by lia.
    set (P := 2 ^ (n - 1)).
    assert (HP : 0 < P) by (apply Z.pow_pos_nonneg; lia).
    assert (H2P : 2 ^ n = 2 * P).
    { unfold P. replace n with (Z.succ (n - 1)) at 1 by lia.
      apply Z.pow_succ_r. lia. }
    assert (HPM : P < M).
    { assert (H46 : 2 ^ 46 = P * 2 ^ (E + 196)).
      { unfold P. rewrite <- Z.pow_add_r by lia. f_equal. lia. }
      assert (0 < 2 ^ (E + 196)) by (apply Z.pow_pos_nonneg; lia).
      nia. }
    assert (Hdiv : M / P = 1).
    { symmetry. apply (Z.div_unique M P 1 (M - P)); lia. }
    assert (Hmod : M mod P = M - P).
    { symmetry. apply (Z.mod_unique M P 1 (M - P)); lia. }
    rewrite Z.div_small by lia.
    assert (Hbit : Z.testbit M (n - 1) = true).
    { apply Z.testbit_true; [lia|]. fold P. now rewrite Hdiv. }
    rewrite Hbit. fold P. rewrite Hmod.
    destruct (Z.eqb_spec (M - P) 0); [lia|]. simpl. lia.
Qed.

Lemma shr_fexp_keeps_positive (m e : Z) :
  1 <= m -> -149 <= e ->
  1 <= shr_m (fst (shr_fexp F32.prec F32.emax m e loc_Exact)).
Proof.
  intros Hm He. rewrite shr_fexp_spec by lia. cbv zeta. rewrite fexp32.
  destruct (Zdigits2_bounds m ltac:(lia)) as [Hlo _].
  destruct (Z.ltb_spec 0 (Z.max (Zdigits2 m + e - 24) (-149) - e)) as [Hn|Hn];
    simpl; [|assumption].
  replace (Z.max (Zdigits2 m + e - 24) (-149) - e) with (Zdigits2 m - 24)
    in * by lia.
  assert (2 ^ 23 <= m / 2 ^ (Zdigits2 m - 24)).
  { apply div_pow2_lower; try lia.
    now replace (23 + (Zdigits2 m - 24)) with (Zdigits2 m - 1) by lia. }
  change (2 ^ 23) with 8388608 in *. lia.
Qed.

Lemma heavy_square_nonzero (m : positive) (e : Z) (s : bool) :
  heavy (Z.pos m) e ->
  F32.is_zero (S754_finite s m e * S754_finite s m e)%f32 = false.
Proof.
  intros (Hm & He & Hw). unfold F32.mul, SFmul, binary_round_aux.
  assert (Hw2 : 2 ^ 46 < Z.pos (m * m) * 2 ^ (e + e + 196)).
  { replace (e + e + 196) with ((e + 98) + (e + 98)) by lia.
    rewrite Z.pow_add_r by lia. rewrite Pos2Z.inj_mul.
    change (2 ^ 46) with 70368744177664. change (2 ^ 23) with 8388608 in *.
    nia. }
  destruct (round_up_from_below_half_excluded (Z.pos (m * m)) (e + e)
              ltac:(lia) ltac:(lia) Hw2) as [H1 H2].
  destruct (shr_fexp F32.prec F32.emax (Z.pos (m * m)) (e + e) loc_Exact)
    as [mrs1 e1]. simpl in H1, H2.
  pose proof (shr_fexp_keeps_positive _ _ H1 H2) as H3.
  destruct (shr_fexp F32.prec F32.emax _ e1 loc_Exact) as [mrs2 e2].
  simpl in H3.
  destruct (shr_m mrs2) as [|p|p]; try lia.
  now destruct (e2 <=? F32.emax - F32.prec).
Qed.


Lemma round_expo_ok (sx : bool) (mx ex : Z) (lx : location) :
  0 <= mx -> expo_ok (binary_round_aux F32.prec F32.emax sx mx ex lx).
Proof.
  intros Hm.
  pose proof (binary_round_aux_cases F32.prec F32.emax sx mx ex lx Hm) as H.
  destruct (binary_round_aux _ _ _ _ _ _); simpl; auto.
  destruct H as (_ & H & _). exact H.
Qed.

Lemma normalize_expo_ok (m e : Z) (sz : bool) :
  expo_ok (binary_normalize F32.prec F32.emax m e sz).
Proof.
  destruct m as [|p|p]; simpl; [exact I| |];
    unfold binary_round; destruct (shl_align _ _ _) as [mz ez];
    apply round_expo_ok; lia.
Qed.

Lemma mul_expo_ok (a b : float) : expo_ok (a * b)%f32.
Proof.
  destruct a as [sa|sa| |sa ma ea], b as [sb|sb| |sb mb eb];
    try exact I.
  unfold F32.mul, SFmul. apply round_expo_ok. lia.
Qed.

Lemma add_expo_ok (a b : float) :
  expo_ok a -> expo_ok b -> expo_ok (a + b)%f32.
Proof.
  destruct a as [sa|sa| |sa ma ea], b as [sb|sb| |sb mb eb];
    intros Ha Hb; try exact I; try assumption.
  - now destruct sa, sb.
  - now destruct sa, sb.
  - unfold F32.add, SFadd. apply normalize_expo_ok.
Qed.

Lemma sqrt_heavy (a : float) :
  expo_ok a ->
  match F32.sqrt a with
  | S754_finite _ m e => heavy (Z.pos m) e
  | _ => True
  end.
Proof.
  destruct a as [sa|[]| |[] m e]; try exact (fun _ => I).
  intros He. simpl in He. unfold F32.sqrt, SFsqrt.
  pose proof (sqrt_core_heavy m e He) as Hc.
  destruct (SFsqrt_core_binary _ _ _ _) as [[q e'] l]. simpl in Hc.
  pose proof (heavy_round false q e' l Hc) as Hr.
  now destruct (binary_round_aux _ _ _ _ _ _).
Qed.

Lemma ltb_zero_not_zero (d : float) :
  (F32.zero <? d)%f32 = true -> F32.is_zero d = false.
Proof. now destruct d. Qed.

(** The divisor [distance * distance] of line 69 under the guard of
    line 68. *)
Lemma norm_square_nonzero (v : Vec3) :
  (F32.zero <? norm v)%f32 = true ->
  F32.is_zero (norm v * norm v)%f32 = false.
Proof.
  unfold norm.
  pose proof (sqrt_heavy (x v * x v + y v * y v + z v * z v)%f32) as H.
  specialize (H ltac:(repeat apply add_expo_ok; apply mul_expo_ok)).
  destruct (F32.sqrt _) as [s|s| |s m e]; try discriminate; intros _.
  - reflexivity.
  - now apply heavy_square_nonzero.
Qed.

(** ** The checking division never stops *)

Lemma checked_div_nonzero (a b : float) (s : ForceSimulation) :
  F32.is_zero b = false -> checked_div a b s = ieee_div a b s.
Proof. intros Hb. unfold checked_div, ieee_div, ret. now rewrite Hb. Qed.

Lemma bind_ext {A B} (m1 m2 : M A) (k1 k2 : A -> M B) s :
  m1 s = m2 s -> (forall a s', k1 a s' = k2 a s') ->
  bind m1 k1 s = bind m2 k2 s.
Proof.
  intros Hm Hk. unfold bind. rewrite Hm. now destruct (m2 s).
Qed.

Lemma for_acc_ext {A} (b1 b2 : nat -> A -> M A) :
  (forall i a s, b1 i a s = b2 i a s) ->
  forall count first acc s,
    for_acc b1 first count acc s = for_acc b2 first count acc s.
Proof.
  intros Hb count. induction count as [|c IH]; intros first acc s.
  - reflexivity.
  - simpl. apply bind_ext; [apply Hb|]. intros a s'. apply IH.
Qed.

Lemma for_range_ext (b1 b2 : nat -> M unit) :
  (forall i s, b1 i s = b2 i s) ->
  forall count first s,
    for_range b1 first count s = for_range b2 first count s.
Proof.
  intros Hb count. induction count as [|c IH]; intros first s.
  - reflexivity.
  - simpl. apply bind_ext; [apply Hb|]. intros a s'. apply IH.
Qed.

Lemma repulsion_inner_body_checked i j force s :
  repulsion_inner_body checked_div i j force s
  = repulsion_inner_body ieee_div i j force s.
Proof.
  unfold repulsion_inner_body. destruct (negb (i =? j)%nat); [|reflexivity].
  apply bind_ext; [reflexivity|]. intros nj s1.
  apply bind_ext; [reflexivity|]. intros ni s2.
  apply bind_ext; [reflexivity|]. intros mx s3.
  destruct (F32.ltb F32.zero _) eqn:Hg; [|reflexivity].
  destruct (F32.ltb _ mx); [|reflexivity]. simpl.
  pose proof (norm_square_nonzero (displacement ni nj) Hg) as Hsq.
  pose proof (ltb_zero_not_zero _ Hg) as Hd.
  apply bind_ext; [apply checked_div_nonzero; exact Hsq|]. intros rep s4.
  apply bind_ext; [apply checked_div_nonzero; exact Hd|]. intros ux s5.
  apply bind_ext; [apply checked_div_nonzero; exact Hd|]. intros uy s6.
  apply bind_ext; [apply checked_div_nonzero; exact Hd|]. intros uz s7.
  reflexivity.
Qed.

Lemma link_body_checked i s :
  link_body checked_div i s = link_body ieee_div i s.
Proof.
  unfold link_body.
  apply bind_ext; [reflexivity|]. intros l s1.
  apply bind_ext; [reflexivity|]. intros td s2.
  apply bind_ext; [reflexivity|]. intros st s3.
  apply bind_ext; [reflexivity|]. intros nt s4.
  apply bind_ext; [reflexivity|]. intros ns s5.
  destruct (F32.ltb F32.zero _) eqn:Hg; [|reflexivity].
  pose proof (ltb_zero_not_zero _ Hg) as Hd.
  apply bind_ext; [apply checked_div_nonzero; exact Hd|]. intros ux s6.
  apply bind_ext; [apply checked_div_nonzero; exact Hd|]. intros uy s7.
  apply bind_ext; [apply checked_div_nonzero; exact Hd|]. intros uz s8.
  reflexivity.
Qed.

Lemma step_checked_eq s : step_checked s = step s.
Proof.
  unfold step_checked, step, step_with.
  apply bind_ext.
  - unfold repulsion_phase. apply bind_ext; [reflexivity|]. intros n s1.
    apply for_range_ext. intros i s2. unfold repulsion_body.
    apply bind_ext; [reflexivity|]. intros k s3.
    apply bind_ext; [|reflexivity].
    apply for_acc_ext. intros; apply repulsion_inner_body_checked.
  - intros _ s1. apply bind_ext; [|reflexivity].
    unfold link_phase. apply bind_ext; [reflexivity|]. intros n s2.
    apply for_range_ext. intros; apply link_body_checked.
Qed.

(** ** Damping: a product by a factor below one *)


Lemma canonical_canon (m : positive) (e : Z) :
  canonical_mantissa F32.prec F32.emax m e = true <-> canon (Z.pos m) e.
Proof.
  unfold canonical_mantissa, canon. rewrite fexp32, Z.eqb_eq.
  change (Z.pos (digits2_pos m)) with (Zdigits2 (Z.pos m)).
  destruct (Zdigits2_bounds (Z.pos m) ltac:(lia)) as [Hlo Hhi].
  split.
  - intros Hc.
    assert (Hd : Zdigits2 (Z.pos m) <= 24) by lia.
    assert (2 ^ Zdigits2 (Z.pos m) <= 2 ^ 24)
      by (apply Z.pow_le_mono_r; lia).
    split; [lia|]. split; [lia|].
    destruct (Z.eq_dec e (-149)) as [|Hne]; [now right|left].
    assert (Hd24 : Zdigits2 (Z.pos m) = 24) by lia.
    now rewrite Hd24 in Hlo.
  - intros (He & Hm & Hn).
    assert (Hd : Zdigits2 (Z.pos m) <= 24) by (apply digits_le; lia).
    destruct Hn as [Hn|Hn]; [|lia].
    assert (24 <= Zdigits2 (Z.pos m)) by (apply digits_ge; [lia|exact Hn]).
    lia.
Qed.

(** The first shift of a rounding, from a mantissa with digits to spare. *)
Lemma shr_fexp_first (M E : Z) (l : location) :
  0 < M -> E <= fexp F32.prec F32.emax (Zdigits2 M + E) ->
  let e1 := fexp F32.prec F32.emax (Zdigits2 M + E) in
  let r := shr_fexp F32.prec F32.emax M E l in
  snd r = e1
  /\ shr_m (fst r) = M / 2 ^ (e1 - E)
  /\ (e1 = E -> loc_of_shr_record (fst r) = l)
  /\ -149 <= e1 /\ shr_m (fst r) < 2 ^ 24
  /\ (2 ^ 23 <= shr_m (fst r) \/ e1 = -149).
Proof.
  intros HM Hn e1 r. unfold r. rewrite shr_fexp_spec by lia. cbv zeta.
  fold e1. unfold e1 in *. rewrite fexp32 in *.
  set (d := Zdigits2 M) in *.
  destruct (Zdigits2_bounds M HM) as [Hlo Hhi]. fold d in Hlo, Hhi.
  assert (Hd1 : 1 <= d) by (apply digits_ge; [assumption|simpl; lia]).
  set (f := Z.max (d + E - 24) (-149)) in *.
  destruct (Z.ltb_spec 0 (f - E)) as [Hpos|Hle]; simpl.
  - split; [lia|]. split; [reflexivity|]. split; [lia|]. split; [lia|].
    assert (Hp : 0 < 2 ^ (f - E)) by (apply Z.pow_pos_nonneg; lia).
    destruct (Z.le_gt_cases (-149) (d + E - 24)) as [Hnorm|Hsub].
    + assert (Hf : f - E = d - 24) by lia. rewrite Hf in *.
      split.
      * apply Z.div_lt_upper_bound; [assumption|].
        rewrite <- Z.pow_add_r by lia.
        now replace (d - 24 + 24) with d by lia.
      * left. apply div_pow2_lower; try lia.
        now replace (23 + (d - 24)) with (d - 1) by lia.
    + split; [|right; lia].
      apply Z.div_lt_upper_bound; [assumption|].
      rewrite <- Z.pow_add_r by lia.
      apply Z.lt_le_trans with (2 ^ d); [assumption|].
      apply Z.pow_le_mono_r; lia.
  - assert (Hf : f = E) by lia. rewrite Hf.
    replace (E - E) with 0 by lia. change (2 ^ 0) with 1. rewrite Z.div_1_r.
    split; [reflexivity|].
    split; [now destruct l as [|[]]|].
    split; [now destruct l as [|[]]|].
    split; [lia|].
    assert (Hd24 : d <= 24 /\ (d = 24 \/ E = -149)) by lia.
    destruct Hd24 as [Hd24 Hor].
    assert (2 ^ d <= 2 ^ 24) by (apply Z.pow_le_mono_r; lia).
    assert (Hm1 : shr_m (shr_record_of_loc M l) = M) by now destruct l as [|[]].
    rewrite Hm1. split; [lia|].
    destruct Hor as [E24|E149]; [left|now right].
    now rewrite E24 in Hlo.
Qed.

(** The second shift: at most one bit, when rounding carried into a 25th. *)
Lemma shr_fexp_second (m e : Z) :
  0 <= m <= 2 ^ 24 -> -149 <= e -> (2 ^ 23 <= m \/ e = -149) ->
  let r := shr_fexp F32.prec F32.emax m e loc_Exact in
  (m < 2 ^ 24 /\ shr_m (fst r) = m /\ snd r = e)
  \/ (m = 2 ^ 24 /\ shr_m (fst r) = 2 ^ 23 /\ snd r = e + 1).
Proof.
  intros Hm He Hn r. unfold r. rewrite shr_fexp_spec by lia. cbv zeta.
  rewrite fexp32.
  destruct (Z.eq_dec m 0) as [->|Hm0].
  - left. simpl (Zdigits2 0).
    destruct (Z.ltb_spec 0 (Z.max (0 + e - 24) (-149) - e)); [lia|].
    simpl. change (2 ^ 24) with 16777216. lia.
  - destruct (Zdigits2_bounds m ltac:(lia)) as [Hlo Hhi].
    set (d := Zdigits2 m) in *.
    destruct (Z.eq_dec m (2 ^ 24)) as [E24|N24].
    + right. assert (Hd : d = 25).
      { assert (25 <= d) by (apply digits_ge; [lia|rewrite E24; simpl; lia]).
        assert (d <= 25)
          by (apply digits_le; [lia|rewrite E24; simpl; lia]).
        lia. }
      rewrite Hd.
      replace (Z.max (25 + e - 24) (-149) - e) with 1 by lia.
      simpl. rewrite E24. repeat split; reflexivity.
    + left. assert (Hlt : m < 2 ^ 24) by lia.
      assert (Hd : d <= 24) by (apply digits_le; lia).
      assert (Hd' : d = 24 \/ e = -149).
      { destruct Hn as [Hn|Hn]; [left|now right].
        assert (24 <= d) by (apply digits_ge; [lia|exact Hn]). lia. }
      destruct (Z.ltb_spec 0 (Z.max (d + e - 24) (-149) - e)); [lia|].
      simpl. auto.
Qed.

Lemma round_product (sx : bool) (ma mb : positive) (ea eb : Z) :
  canon (Z.pos ma) ea -> ea <= 104 ->
  canon (Z.pos mb) eb -> eb <= -23 -> Z.pos mb < 2 ^ (- eb) ->
  match binary_round_aux F32.prec F32.emax sx (Z.pos (ma * mb)) (ea + eb)
                         loc_Exact with
  | S754_zero _ => True
  | S754_finite _ m e =>
      canon (Z.pos m) e /\ e <= 104
      /\ (e < ea \/ (e = ea /\ Z.pos m <= Z.pos ma))
  | S754_infinity _ | S754_nan => False
  end.
Proof.
  intros (Hea & Hma & Hna) Hea104 (Heb & Hmb & Hnb) Heb23 Hb1.
  rewrite Pos2Z.inj_mul.
  set (M := Z.pos ma * Z.pos mb). set (E := ea + eb).
  assert (HM : 0 < M) by (unfold M; lia).
  destruct (Zdigits2_bounds M HM) as [Hlo Hhi].
  set (d := Zdigits2 M) in *.
  assert (Hpb : 0 < 2 ^ (- eb)) by (apply Z.pow_pos_nonneg; lia).
  assert (HMlt : M < Z.pos ma * 2 ^ (- eb)) by (unfold M; nia).
  (* the product has digits to spare *)
  assert (Hpre : E <= fexp F32.prec F32.emax (d + E)).
  { rewrite fexp32. destruct Hna as [Hna|Hna]; [|unfold E; lia].
    assert (24 <= d).
    { apply digits_ge; [assumption|]. change (2 ^ (24 - 1)) with (2 ^ 23).
      unfold M. nia. }
    lia. }
  (* and its exponent does not exceed that of the first factor *)
  assert (Hd : d <= 24 - eb).
  { apply digits_le; [assumption|].
    replace (24 - eb) with (24 + - eb) by lia.
    rewrite Z.pow_add_r by lia. nia. }
  unfold binary_round_aux.
  destruct (shr_fexp_first M E loc_Exact HM Hpre)
    as (He1 & Hm1 & Hl1 & He1lo & Hm1hi & Hm1n).
  fold d in He1, Hm1, Hl1, He1lo, Hm1n.
  destruct (shr_fexp F32.prec F32.emax M E loc_Exact) as [mrs1 e1].
  simpl in He1, Hm1, Hl1, Hm1hi, Hm1n.
  rewrite fexp32 in *.
  set (f := Z.max (d + E - 24) (-149)) in *.
  assert (Hfe : E <= f <= ea) by (unfold E in *; lia).
  subst e1.
  set (K := Z.pos ma * 2 ^ (ea - f)).
  assert (Hp1 : 0 < 2 ^ (f - E)) by (apply Z.pow_pos_nonneg; lia).
  assert (Hm1K : shr_m mrs1 < K).
  { rewrite Hm1. apply Z.div_lt_upper_bound; [assumption|].
    unfold K. rewrite (Z.mul_comm (2 ^ (f - E))), <- Z.mul_assoc.
    rewrite <- Z.pow_add_r by lia.
    replace (ea - f + (f - E)) with (- eb) by (unfold E; lia).
    assumption. }
  assert (Hm1pos : 0 <= shr_m mrs1)
    by (rewrite Hm1; apply Z.div_pos; lia).
  pose proof (round_nearest_even_bounds (shr_m mrs1) (loc_of_shr_record mrs1))
    as Hr.
  set (m2 := round_nearest_even (shr_m mrs1) (loc_of_shr_record mrs1)) in *.
  destruct (shr_fexp_second m2 f ltac:(lia) ltac:(lia) ltac:(lia))
    as [(Hlt & Hm3 & He2)|(Heq & Hm3 & He2)];
    destruct (shr_fexp F32.prec F32.emax m2 f loc_Exact) as [mrs2 e2];
    simpl in Hm3, He2; rewrite Hm3; subst e2.
  - destruct m2 as [|p|p] eqn:Hp; [exact I| |lia].
    destruct (Z.leb_spec f (F32.emax - F32.prec)) as [_|Hov];
      [|unfold F32.emax, F32.prec in Hov; lia].
    split; [repeat split; lia|]. split; [lia|].
    destruct (Z.eq_dec f ea) as [Efa|Nfa]; [right|left; lia].
    split; [assumption|].
    unfold K in Hm1K. rewrite Efa, Z.sub_diag in Hm1K.
    change (2 ^ 0) with 1 in Hm1K. lia.
  - change (2 ^ 23) with (Z.pos 8388608).
    assert (HK : 2 ^ 24 <= K) by lia.
    assert (Hne : f <> ea).
    { intros Efa. unfold K in HK. rewrite Efa, Z.sub_diag in HK.
      change (2 ^ 0) with 1 in HK. lia. }
    destruct (Z.leb_spec (f + 1) (F32.emax - F32.prec)) as [_|Hov];
      [|unfold F32.emax, F32.prec in Hov; lia].
    split; [repeat split; simpl; lia|]. split; [lia|].
    destruct (Z.eq_dec (f + 1) ea) as [Efa|Nfa]; [right|left; lia].
    split; [assumption|].
    unfold K in HK. replace (ea - f) with 1 in HK by lia.
    change (2 ^ 1) with 2 in HK. change (2 ^ 24) with 16777216 in HK. lia.
Qed.

Lemma valid_canon (s : bool) (m : positive) (e : Z) :
  F32.valid (S754_finite s m e) = true <-> canon (Z.pos m) e /\ e <= 104.
Proof.
  unfold F32.valid, valid_binary, bounded.
  rewrite andb_true_iff, canonical_canon, Z.leb_le. reflexivity.
Qed.

Lemma below_one (mb : positive) (eb : Z) :
  canon (Z.pos mb) eb ->
  (S754_finite false mb eb <? F32.one)%f32 = true ->
  eb <= -23 /\ Z.pos mb < 2 ^ (- eb).
Proof.
  intros (He & Hm & Hn). unfold F32.ltb, SFltb.
  change F32.one with (S754_finite false 8388608 (-23)).
  cbn [SFcompare].
  destruct (Z.compare_spec eb (-23)) as [->|Hlt|Hgt]; try discriminate.
  - destruct (Pos.compare_cont Eq mb 8388608) eqn:Hc; try discriminate.
    intros _.
    pose proof (proj1 (Pos.compare_lt_iff mb 8388608) Hc) as Hlt.
    clear Hc He Hm Hn.
    split; [reflexivity|]. change (2 ^ (- -23)) with (Z.pos 8388608).
    exact Hlt.
  - intros _. split; [lia|].
    assert (2 ^ 24 <= 2 ^ (- eb)) by (apply Z.pow_le_mono_r; lia). lia.
Qed.

Lemma no_larger_finite (m ma : positive) (e ea : Z) (s sa : bool) :
  e < ea \/ (e = ea /\ Z.pos m <= Z.pos ma) ->
  no_larger (S754_finite s m e) (S754_finite sa ma ea) = true.
Proof.
  intros H. unfold no_larger, F32.leb, SFleb. simpl.
  destruct H as [Hlt|[-> Hle]].
  - apply Z.compare_lt_iff in Hlt. now rewrite Hlt.
  - rewrite Z.compare_refl.
    change (Pos.compare_cont Eq m ma) with (Pos.compare m ma).
    destruct (Pos.compare_spec m ma); try reflexivity. lia.
Qed.

(** Multiplying a number by a factor in [0, 1) gives a number that is no
    larger. *)
Lemma mul_decay (a b : float) :
  number a = true -> F32.valid b = true ->
  F32.leb F32.zero b = true -> (b <? F32.one)%f32 = true ->
  number (a * b)%f32 = true /\ no_larger (a * b)%f32 a = true.
Proof.
  unfold number at 1. rewrite andb_true_iff. intros [Hfa Hva] Hvb H0 H1.
  destruct b as [sb|[]| |[] mb eb]; try discriminate.
  - destruct a as [sa|sa| |sa ma ea]; try discriminate; split; reflexivity.
  - destruct a as [sa|sa| |sa ma ea]; try discriminate;
      [split; reflexivity|].
    apply valid_canon in Hva as [Hca Hea], Hvb as [Hcb Heb].
    destruct (below_one mb eb Hcb H1) as [Heb23 Hb1].
    pose proof (round_product (xorb sa false) ma mb ea eb
                  Hca Hea Hcb Heb23 Hb1) as Hr.
    unfold F32.mul, SFmul.
    destruct (binary_round_aux _ _ _ _ _ _) as [s|s| |s m e];
      try contradiction.
    + split; reflexivity.
    + destruct Hr as (Hc & He & Hle). split.
      * unfold number. cbn [F32.is_finite andb].
        apply (proj2 (valid_canon s m e)). now split.
      * now apply no_larger_finite.
Qed.

Lemma add_zero_cases (a : float) :
  (a + F32.zero)%f32 = a
  \/ (F32.is_zero a = true /\ (a + F32.zero)%f32 = F32.zero).
Proof. destruct a as [[]| | |]; auto. Qed.

Lemma damp_component (a b : float) :
  number a = true -> F32.valid b = true ->
  F32.leb F32.zero b = true -> (b <? F32.one)%f32 = true ->
  number ((a + F32.zero) * b)%f32 = true
  /\ no_larger ((a + F32.zero) * b)%f32 a = true.
Proof.
  intros Ha Hvb H0 H1.
  destruct (add_zero_cases a) as [->|[Hz ->]].
  - now apply mul_decay.
  - destruct (mul_decay F32.zero b eq_refl Hvb H0 H1) as [Hn Hl].
    split; [assumption|].
    destruct a; try discriminate. exact Hl.
Qed.

Lemma damp_zero (a b : float) :
  F32.is_zero a = true -> F32.is_finite b = true ->
  F32.is_zero ((a + F32.zero) * b)%f32 = true.
Proof.
  intros Ha Hb. apply F32Facts.mul_zero_l; [|assumption].
  now destruct a as [[]| | |].
Qed.

Lemma decay_finite (b : float) :
  F32.leb F32.zero b = true -> (b <? F32.one)%f32 = true ->
  F32.is_finite b = true.
Proof. destruct b as [s|[]| |s m e]; try discriminate; reflexivity. Qed.

Lemma same_number_trans (a b c : float) :
  same_number a b -> same_number b c -> same_number a c.
Proof.
  unfold same_number. intros [->|[Ha Hb]] [->|[Hb' Hc]]; auto.
Qed.

Lemma add_zero_velocity_same (p a : float) :
  F32.is_zero a = true -> same_number (p + (a + F32.zero))%f32 p.
Proof.
  intros Ha. replace (a + F32.zero)%f32 with F32.zero
    by now destruct a as [[]| | |].
  apply add_zero_same.
Qed.

(** ** A single node across steps *)

Lemma steps_single (n : nat) : forall p v c ds ss mx decay,
  steps n (single_node p v c ds ss mx decay)
  = Ok tt (single_node (drifted decay n p v) (decayed decay n v)
             c ds ss mx decay).
Proof.
  assert (Hshift : forall decay k v,
    decayed decay k (vscale (vadd v zero3) decay) = decayed decay (S k) v).
  { intros decay k v. induction k as [|k IH]; [reflexivity|].
    cbn [decayed] in *. now rewrite IH. }
  assert (Hdrift : forall decay k p v,
    drifted decay k (vadd p (vadd v zero3)) (vscale (vadd v zero3) decay)
    = drifted decay (S k) p v).
  { intros decay k p v. induction k as [|k IH]; [reflexivity|].
    change (drifted decay (S k) (vadd p (vadd v zero3))
              (vscale (vadd v zero3) decay))
      with (vadd (drifted decay k (vadd p (vadd v zero3))
                    (vscale (vadd v zero3) decay))
                 (vadd (decayed decay k (vscale (vadd v zero3) decay)) zero3)).
    rewrite IH, Hshift. reflexivity. }
  induction n as [|n IH]; intros p v c ds ss mx decay; [reflexivity|].
  cbn [steps]. unfold bind at 1. rewrite step_single.
  rewrite IH, Hshift, Hdrift. reflexivity.
Qed.

Lemma number3_inv (v : Vec3) :
  number3 v = true ->
  number (x v) = true /\ number (y v) = true /\ number (z v) = true.
Proof. unfold number3. rewrite !andb_true_iff. tauto. Qed.

Lemma damp_vector (v : Vec3) (b : float) :
  number3 v = true -> F32.valid b = true ->
  F32.leb F32.zero b = true -> (b <? F32.one)%f32 = true ->
  number3 (vscale (vadd v zero3) b) = true
  /\ no_larger3 (vscale (vadd v zero3) b) v = true.
Proof.
  intros Hv Hvb H0 H1. apply number3_inv in Hv as (Hx & Hy & Hz).
  destruct (damp_component (x v) b Hx Hvb H0 H1) as [Hnx Hlx].
  destruct (damp_component (y v) b Hy Hvb H0 H1) as [Hny Hly].
  destruct (damp_component (z v) b Hz Hvb H0 H1) as [Hnz Hlz].
  unfold number3, no_larger3, vscale, vadd; simpl.
  now rewrite Hnx, Hny, Hnz, Hlx, Hly, Hlz.
Qed.

Lemma decayed_number (b : float) (n : nat) (v : Vec3) :
  number3 v = true -> F32.valid b = true ->
  F32.leb F32.zero b = true -> (b <? F32.one)%f32 = true ->
  number3 (decayed b n v) = true.
Proof.
  intros Hv Hvb H0 H1. induction n as [|n IH]; [assumption|].
  simpl. now apply damp_vector.
Qed.

Lemma zero3b_inv (v : Vec3) :
  zero3b v = true ->
  F32.is_zero (x v) = true /\ F32.is_zero (y v) = true
  /\ F32.is_zero (z v) = true.
Proof. unfold zero3b. rewrite !andb_true_iff. tauto. Qed.

Lemma decayed_zero (b : float) (n : nat) (v : Vec3) :
  F32.is_finite b = true -> zero3b v = true -> zero3b (decayed b n v) = true.
Proof.
  intros Hb Hv. induction n as [|n IH]; [assumption|].
  apply zero3b_inv in IH as (Hx & Hy & Hz).
  simpl. unfold zero3b, vscale, vadd; simpl.
  now rewrite !damp_zero.
Qed.

Lemma drifted_zero (b : float) (n : nat) (p v : Vec3) :
  F32.is_finite b = true -> zero3b v = true ->
  same_vector (drifted b n p v) p.
Proof.
  intros Hb Hv. induction n as [|n IH].
  - repeat split; now left.
  - pose proof (decayed_zero b n v Hb Hv) as Hz.
    apply zero3b_inv in Hz as (Hx & Hy & Hz).
    destruct IH as (Ix & Iy & Iz). simpl.
    repeat split; simpl;
      (eapply same_number_trans;
       [apply add_zero_velocity_same; assumption|assumption]).
Qed.

(** ** The repulsion phase as the specification words it *)

Lemma accumulate_as_worded (maxDist : float) (ns : list Node) (i j : nat)
    (force : Vec3) :
  finite3 (position (ns !!! i)) = true ->
  finite3 (position (ns !!! j)) = true ->
  F32.is_nan maxDist = false ->
  accumulate maxDist ns i force j
  = if Nat.eqb i j then force
    else contribute force (spec_repulsion_term maxDist (ns !!! i) (ns !!! j)).
Proof.
  intros Hfi Hfj Hmx. unfold accumulate, spec_repulsion_term.
  destruct (i =? j)%nat; [reflexivity|]. simpl negb.
  pose proof (node_distance_nonneg _ _ Hfi Hfj) as Hd.
  fold (node_distance (ns !!! i) (ns !!! j)).
  rewrite (guard_as_worded _ _ Hd Hmx).
  destruct (_ || _); simpl; [reflexivity|].
  now rewrite pair_force_as_worded.
Qed.

Lemma all_finite_lookup (ns : list Node) (j : nat) :
  Forall (fun n => finite3 (position n) = true) ns ->
  (j < length ns)%nat -> finite3 (position (ns !!! j)) = true.
Proof.
  intros Hall Hj. rewrite Forall_forall in Hall. apply Hall.
  apply list_elem_of_lookup. exists j.
  now apply list_lookup_lookup_total_lt.
Qed.

Lemma force_on_as_worded (maxDist : float) (ns : list Node) (i : nat) :
  Forall (fun n => finite3 (position n) = true) ns ->
  F32.is_nan maxDist = false -> (i < length ns)%nat ->
  force_on maxDist ns i = spec_force_on maxDist ns i.
Proof.
  intros Hall Hmx Hi. unfold force_on, spec_force_on.
  assert (Hin : forall j, In j (seq 0 (length ns)) -> (j < length ns)%nat)
    by (intros j Hj; apply in_seq in Hj; lia).
  revert Hin. generalize (seq 0 (length ns)) zero3.
  intros js. induction js as [|j js IH]; intros acc Hin; [reflexivity|].
  simpl. rewrite accumulate_as_worded.
  - apply IH. intros j' Hj'. apply Hin. now right.
  - now apply all_finite_lookup.
  - apply all_finite_lookup; [assumption|]. apply Hin. now left.
  - assumption.
Qed.

Lemma repulsed_as_worded (maxDist : float) (ns : list Node) :
  Forall (fun n => finite3 (position n) = true) ns ->
  F32.is_nan maxDist = false ->
  repulsed maxDist ns = spec_repulsed maxDist ns.
Proof.
  intros Hall Hmx. apply list_eq. intros k. unfold repulsed, spec_repulsed.
  rewrite !list_lookup_imap.
  destruct (ns !! k) eqn:Hk; [|reflexivity]. simpl.
  rewrite force_on_as_worded; eauto using lookup_lt_Some.
Qed.

Lemma geometry_spec_repulsed mx ns :
  geometry <$> spec_repulsed mx ns = geometry <$> ns.
Proof.
  apply list_eq. intros k. unfold spec_repulsed.
  rewrite !list_lookup_fmap, list_lookup_imap.
  now destruct (ns !! k).
Qed.

Lemma inner_body_at_cutoff (s : ForceSimulation) (i j : nat) (force : Vec3) :
  (i < length (nodes s))%nat -> (j < length (nodes s))%nat ->
  let d := node_distance (nodes s !!! i) (nodes s !!! j) in
  repulsion_inner_body ieee_div i j force (with_maxDistance d s)
  = Ok force (with_maxDistance d s).
Proof.
  intros Hi Hj d. rewrite repulsion_inner_body_eq by assumption.
  unfold accumulate, in_range. simpl. fold d.
  rewrite F32Facts.ltb_irrefl, andb_false_r.
  now destruct (negb _).
Qed.

(** ** The engine on concrete inputs *)

(** binary32 literals. *)
Example tenth_is_one_over_ten : (F32.one / F32.of_int 10)%f32 = f32_tenth.
Proof. reflexivity. Qed.

Example half_is_one_over_two : (F32.one / F32.of_int 2)%f32 = f32_half.
Proof. reflexivity. Qed.

(** Two unit charges: each node receives a unit force towards the other,
    moves by it, and keeps a tenth of it as velocity. *)
Example two_charges_step :
  step two_charges
  = Ok tt (set_nodes two_charges
             [mkNode unit_x (mkVec3 f32_tenth F32.zero F32.zero) F32.one;
              mkNode zero3
                     (mkVec3 (S754_finite true 13421773 (-27)) F32.zero
                             F32.zero) F32.one]).
Proof. vm_compute. reflexivity. Qed.

(** A link at its rest length between uncharged nodes at rest: nothing
    moves. *)
Example link_at_rest_still : step link_at_rest = Ok tt link_at_rest.
Proof. vm_compute. reflexivity. Qed.

(** The same link with rest length 3: the end points are pulled together
    along (3,4,0)/5 with force 2 * (5 - 3) = 4. *)
Example link_stretched_pull :
  x (velocity (forced link_stretched !!! 0%nat))
  = (F32.of_int 3 / f32_5 * F32.of_int 4)%f32
  /\ y (velocity (forced link_stretched !!! 1%nat))
     = (F32.zero - F32.of_int 4 / f32_5 * F32.of_int 4)%f32.
Proof. split; vm_compute; reflexivity. Qed.

(** A negative [int] index wraps around to an index that no vector of fewer
    than 2^31 elements reaches. *)
Lemma negative_index_out_of_bounds (s : ForceSimulation) (k : Z) :
  -2147483648 <= k < 0 ->
  Z.of_nat (length (nodes s)) <= 2147483648 ->
  at_index nodes (size_t_of_int k) s = OutOfBounds s.
Proof.
  intros Hk Hn. apply at_index_ge. unfold size_t_of_int.
  assert (Hmod : k mod 2 ^ 32 = k + 4294967296).
  { symmetry. apply (Z.mod_unique k (2 ^ 32) (-1)); [left|];
      change (2 ^ 32) with 4294967296; lia. }
  rewrite Hmod. lia.
Qed.

(** * The claims *)

(** C1 (as amended).  [step] performs no validation and reports no
    [IndexOutOfRange] or [InvalidConfiguration]: it completes its three
    phases exactly when every vector access of the link loop is in bounds,
    that is when each link's source and target address an existing node and
    [distances] and [strengths] have an entry for each link -- which covers
    every configuration the specification calls valid, and constraint arrays
    longer than the link array as well.  Otherwise it indexes a vector
    outside its bounds at the first link with such an access, after the
    repulsion phase and the links before that one have updated the
    velocities. *)
Theorem step_runs_unvalidated (s : ForceSimulation) :
  step s = match first_fault s with
           | None => Ok tt (stepped s)
           | Some k => OutOfBounds (faulted s k)
           end
  /\ links_in_bounds s
     = match first_fault s with None => true | Some _ => false end
  /\ implb (well_configured s) (links_in_bounds s) = true.
Proof.
  split; [apply step_spec|]. split; [apply first_fault_in_bounds|].
  destruct (well_configured s) eqn:Hw; [|reflexivity].
  now rewrite (well_configured_in_bounds s Hw).
Qed.

(** C1 as stated fails.  With one target distance and no link the lengths
    disagree, yet [step] completes and moves the nodes; with a link whose
    target index equals the node count, the out-of-bounds access happens
    after the velocities have been changed. *)
Lemma step_validation_counterexample :
  (well_configured surplus_distance = false
   /\ exists s', step surplus_distance = Ok tt s'
                 /\ nodes s' <> nodes surplus_distance)
  /\ (well_configured dangling_link = false
      /\ exists s', step dangling_link = OutOfBounds s'
                    /\ nodes s' <> nodes dangling_link).
Proof.
  split; (split; [reflexivity|]); eexists;
    (split; [vm_compute; reflexivity|]); vm_compute; discriminate.
Qed.

(** C10.  Whatever its outcome, [step] leaves the number of nodes, every
    node's charge, the link, distance and strength arrays and the
    configuration as they were: it writes positions and velocities only. *)
Theorem step_frame (s : ForceSimulation) :
  frame (final_state (step s)) = frame s.
Proof.
  destruct (links_in_bounds s) eqn:Hb.
  - rewrite (step_eq s Hb). simpl.
    rewrite <- (frame_set_nodes s (nodes (stepped s)) (charge_stepped s)).
    reflexivity.
  - destruct (step_out s Hb) as (ns' & Hg & ->). simpl.
    now apply frame_set_nodes, geometry_charge.
Qed.







(** C4.  Integration phase.  [step] ends by mapping [integrate] over the node
    vector the force phases left: each position is incremented by the
    velocity as the forces left it, and only then is that velocity multiplied
    by [velocityDecay].  With a decay of zero, a single node of finite
    velocity [v] and no link ends one [step] displaced by the whole pre-decay
    velocity ([v], the repulsion phase having added a zero force) and with a
    velocity of zero. *)
Theorem integration_after_forces (s : ForceSimulation) (p v : Vec3)
    (c maxDist velDecay : float) (ds ss : list float) :
  finite3 v = true ->
  F32.is_zero velDecay = true ->
  match step s with
  | Ok _ s' => nodes s' = map (integrate (velocityDecay s)) (forced s)
  | OutOfBounds _ | DivisionByZero _ => True
  end
  /\ (forall d n, position (integrate d n) = vadd (position n) (velocity n)
                  /\ velocity (integrate d n) = vscale (velocity n) d)
  /\ step (single_node p v c ds ss maxDist velDecay)
     = Ok tt (single_node (vadd p (vadd v zero3))
                          (vscale (vadd v zero3) velDecay)
                          c ds ss maxDist velDecay)
  /\ same_vector (vadd v zero3) v
  /\ zero3b (vscale (vadd v zero3) velDecay) = true.
Proof.
  intros Hv Hd. split; [|split; [|split; [|split]]].
  - destruct (links_in_bounds s) eqn:Hb.
    + now rewrite (step_eq s Hb).
    + now destruct (step_out s Hb) as (ns' & _ & ->).
  - intros d n. split; reflexivity.
  - apply step_single.
  - apply vadd_zero3_same.
  - unfold finite3 in Hv. rewrite !andb_true_iff in Hv.
    destruct Hv as ((Hx & Hy) & Hz).
    unfold zero3b, vscale, vadd; simpl.
    rewrite !F32Facts.mul_zero_r; auto using add_zero_finite.
Qed.

Lemma integration_after_forces_witness :
  match step two_charges with
  | Ok _ s' => nodes s'
               = map (integrate (velocityDecay two_charges))
                     (forced two_charges)
  | OutOfBounds _ | DivisionByZero _ => True
  end
  /\ (forall d n, position (integrate d n) = vadd (position n) (velocity n)
                  /\ velocity (integrate d n) = vscale (velocity n) d)
  /\ step (single_node zero3 unit_x F32.one [] [] f32_100 F32.zero)
     = Ok tt (single_node (vadd zero3 (vadd unit_x zero3))
                          (vscale (vadd unit_x zero3) F32.zero)
                          F32.one [] [] f32_100 F32.zero)
  /\ same_vector (vadd unit_x zero3) unit_x
  /\ zero3b (vscale (vadd unit_x zero3) F32.zero) = true.
Proof.
  apply (integration_after_forces two_charges zero3 unit_x F32.one f32_100
           F32.zero [] []); reflexivity.
Defined.

(** C5 (as amended).  [getNodes] is a pure read: it leaves the object as it
    was, and two calls without a [step] between them return the same
    reference, through which the same nodes are read.  What it returns is a
    read-only reference to the engine's own node vector, not a copy: read
    after a later [step] or [setNodes] it shows the nodes the engine holds
    then. *)
Theorem getNodes_reads_in_place (s : ForceSimulation)
    (newNodes : list Node) :
  snd (getNodes s) = s
  /\ getNodes (snd (getNodes s)) = getNodes s
  /\ deref (fst (getNodes s)) (snd (getNodes s)) = nodes s
  /\ deref (fst (getNodes s)) (final_state (step s))
     = nodes (final_state (step s))
  /\ deref (fst (getNodes s)) (setNodes newNodes s) = newNodes.
Proof. repeat split. Qed.

(** C5 as stated fails: the sequence [getNodes] returned before a [step] is
    not a snapshot; read after the [step] it shows the moved nodes. *)
Lemma getNodes_snapshot_counterexample :
  exists s', step two_charges = Ok tt s'
             /\ deref (fst (getNodes two_charges)) s'
                <> deref (fst (getNodes two_charges)) two_charges.
Proof.
  eexists. split; [vm_compute; reflexivity|]. vm_compute. discriminate.
Qed.

(** C8 (as amended).  Two unit charges at (0,0,0) and (1,0,0), cutoff 100,
    no link, any damping and any initial velocities: the repulsion phase adds
    (1,0,0) to the first node's velocity and (-1,0,0) to the second's --
    equal magnitude 1.0, opposite along x.  After the whole [step] from rest
    the positions have moved by these vectors, and the velocities are these
    vectors multiplied by [velocityDecay]. *)
Theorem symmetric_repulsion (v0 v1 : Vec3) (velDecay : float) :
  repulsion_phase ieee_div (unit_charges v0 v1 velDecay)
  = Ok tt (set_nodes (unit_charges v0 v1 velDecay)
             [mkNode zero3 (vadd v0 unit_x) F32.one;
              mkNode unit_x (vadd v1 minus_unit_x) F32.one])
  /\ step (unit_charges zero3 zero3 velDecay)
     = Ok tt (set_nodes (unit_charges zero3 zero3 velDecay)
                [mkNode unit_x (vscale unit_x velDecay) F32.one;
                 mkNode zero3 (vscale minus_unit_x velDecay) F32.one]).
Proof.
  split.
  - rewrite repulsion_phase_eq. reflexivity.
  - rewrite step_eq by reflexivity. reflexivity.
Qed.

(** C8 as stated fails for the velocities a caller can read: with the
    constructor's default damping 0.1 and the nodes at rest, the velocity
    after [step] is 0.1 along x, so the change of velocity over the step has
    magnitude 0.1, not 1.0. *)
Lemma symmetric_repulsion_counterexample :
  exists n0 n1,
    step two_charges = Ok tt (set_nodes two_charges [n0; n1])
    /\ (x (velocity n0) - x (velocity node_at_origin))%f32 = f32_tenth
    /\ (x (velocity n1) - x (velocity node_at_unit_x))%f32
       = S754_finite true 13421773 (-27)
    /\ f32_tenth <> F32.one.
Proof.
  do 2 eexists. split; [vm_compute; reflexivity|].
  repeat split; try reflexivity. discriminate.
Qed.

(** C9.  For a configuration whose link indices are in range and whose
    constraint arrays match the link count, [step] completes, and it does so
    under the division that stops at a zero divisor as well: every division
    is reached only after the test [distance > 0], under which neither
    [distance] nor [distance * distance] is zero, so no division by zero
    occurs. *)
Theorem divisions_guarded (s : ForceSimulation) (v : Vec3) :
  well_configured s = true ->
  step_checked s = Ok tt (stepped s)
  /\ step s = Ok tt (stepped s)
  /\ implb (F32.zero <? norm v)%f32
           (negb (F32.is_zero (norm v))
            && negb (F32.is_zero (norm v * norm v)%f32)) = true.
Proof.
  intros Hw. pose proof (well_configured_in_bounds s Hw) as Hb.
  split; [|split].
  - rewrite step_checked_eq. now apply step_eq.
  - now apply step_eq.
  - destruct (F32.zero <? norm v)%f32 eqn:Hg; [|reflexivity]. simpl.
    now rewrite (ltb_zero_not_zero _ Hg), (norm_square_nonzero v Hg).
Qed.

Lemma divisions_guarded_witness :
  step_checked link_stretched = Ok tt (stepped link_stretched)
  /\ step link_stretched = Ok tt (stepped link_stretched)
  /\ implb (F32.zero <? norm unit_x)%f32
           (negb (F32.is_zero (norm unit_x))
            && negb (F32.is_zero (norm unit_x * norm unit_x)%f32)) = true.
Proof. apply (divisions_guarded link_stretched unit_x). reflexivity. Defined.




(** * Further properties of the engine *)

(** ** Symmetry of the pairwise computation *)

Lemma round_opp (sx : bool) (mx ex : Z) (lx : location) :
  binary_round_aux F32.prec F32.emax (negb sx) mx ex lx
  = F32.opp (binary_round_aux F32.prec F32.emax sx mx ex lx).
Proof.
  unfold binary_round_aux.
  destruct (shr_fexp F32.prec F32.emax mx ex lx) as [mrs1 e1].
  destruct (shr_fexp F32.prec F32.emax _ e1 loc_Exact) as [mrs2 e2].
  destruct (shr_m mrs2); try reflexivity.
  now destruct (e2 <=? F32.emax - F32.prec).
Qed.

Lemma normalize_opp (m e : Z) :
  m <> 0 ->
  binary_normalize F32.prec F32.emax (- m) e false
  = F32.opp (binary_normalize F32.prec F32.emax m e false).
Proof.
  destruct m as [|p|p]; [congruence| |]; intros _; simpl;
    unfold binary_round; destruct (shl_align _ _ _) as [mz ez].
  - apply (round_opp false).
  - apply (round_opp true).
Qed.

Lemma opposite_opp (a : float) : opposite (F32.opp a) a.
Proof. now left. Qed.

Lemma sub_opposite (a b : float) : opposite (b - a)%f32 (a - b)%f32.
Proof.
  destruct a as [sa|sa| |sa ma ea], b as [sb|sb| |sb mb eb];
    try (left; reflexivity);
    try (destruct sa, sb; (left; reflexivity) || (right; split; reflexivity)).
  unfold F32.sub, SFsub. rewrite (Z.min_comm eb ea).
  set (ez := Z.min ea eb).
  set (A := cond_Zopp sa (Z.pos (fst (shl_align ma ea ez)))).
  set (B := cond_Zopp sb (Z.pos (fst (shl_align mb eb ez)))).
  destruct (Z.eq_dec (A - B) 0) as [E|N].
  - right. rewrite E. replace (B - A) with 0 by lia. split; reflexivity.
  - left. replace (B - A) with (- (A - B)) by lia. now apply normalize_opp.
Qed.

Lemma mul_opp_l (a b : float) : (F32.opp a * b)%f32 = F32.opp (a * b)%f32.
Proof.
  destruct a as [sa|sa| |sa ma ea], b as [sb|sb| |sb mb eb];
    try reflexivity; unfold F32.mul, F32.opp; simpl;
    try (now destruct sa, sb).
  rewrite <- (round_opp (xorb sa sb)). f_equal. now destruct sa, sb.
Qed.

Lemma div_opp_l (a b : float) : (F32.opp a / b)%f32 = F32.opp (a / b)%f32.
Proof.
  destruct a as [sa|sa| |sa ma ea], b as [sb|sb| |sb mb eb];
    try reflexivity; unfold F32.div, F32.opp; simpl;
    try (now destruct sa, sb).
  destruct (SFdiv_core_binary _ _ _ _ _ _) as [[q e'] l].
  rewrite <- (round_opp (xorb sa sb)). f_equal. now destruct sa, sb.
Qed.

Lemma opposite_square (a b : float) : opposite a b -> (a * a)%f32 = (b * b)%f32.
Proof.
  intros [->|[Ha Hb]].
  - rewrite mul_opp_l, (F32Facts.mul_comm b), mul_opp_l.
    now destruct (b * b)%f32 as [[]|[]| |[] m e].
  - destruct a as [[]| | |], b as [[]| | |]; try discriminate; reflexivity.
Qed.

Lemma opposite_div (a b d : float) :
  opposite a b -> opposite (a / d)%f32 (b / d)%f32.
Proof.
  intros [->|[Ha Hb]].
  - left. apply div_opp_l.
  - destruct a as [sa| | |], b as [sb| | |]; try discriminate.
    destruct d as [sd|sd| |sd md ed];
      [left|right|left|right]; try reflexivity; split; reflexivity.
Qed.

Lemma opposite_mul (a b r : float) :
  opposite a b -> opposite (a * r)%f32 (b * r)%f32.
Proof.
  intros [->|[Ha Hb]].
  - left. apply mul_opp_l.
  - destruct a as [sa| | |], b as [sb| | |]; try discriminate.
    destruct r as [sr|sr| |sr mr er];
      [right|left|left|right]; try reflexivity; split; reflexivity.
Qed.

Lemma displacement_opposite (ni nj : Node) :
  opposite3 (displacement nj ni) (displacement ni nj).
Proof. repeat split; apply sub_opposite. Qed.

Lemma node_distance_sym (ni nj : Node) :
  node_distance nj ni = node_distance ni nj.
Proof.
  destruct (displacement_opposite ni nj) as (Hx & Hy & Hz).
  unfold node_distance, norm.
  now rewrite (opposite_square _ _ Hx), (opposite_square _ _ Hy),
    (opposite_square _ _ Hz).
Qed.

(** X1.  The pairwise computation is symmetric, for all binary32 values:
    the distance computed for the pair (j, i) is the one computed for
    (i, j), so the guard of line 68 lets both directions through or
    neither, and the vectors the two directions add are opposite, component
    by component (two zeros counting as opposite). *)
Theorem repulsion_pair_symmetric (maxDist : float) (ni nj : Node) :
  node_distance nj ni = node_distance ni nj
  /\ in_range maxDist (node_distance nj ni)
     = in_range maxDist (node_distance ni nj)
  /\ opposite3 (pair_force nj ni) (pair_force ni nj).
Proof.
  pose proof (node_distance_sym ni nj) as Hd.
  split; [assumption|]. split; [now rewrite Hd|].
  destruct (displacement_opposite ni nj) as (Hx & Hy & Hz).
  unfold pair_force. fold (node_distance nj ni) (node_distance ni nj).
  rewrite Hd, (F32Facts.mul_comm (charge nj) (charge ni)).
  repeat split; simpl; now apply opposite_mul, opposite_div.
Qed.

(** ** Coincident end points *)

Lemma sub_self_cases (a : float) :
  (a - a)%f32 = F32.zero \/ (a - a)%f32 = S754_nan.
Proof.
  destruct a as [[]|[]| |sa ma ea]; auto.
  left. now apply F32Facts.sub_diag.
Qed.

Lemma norm_coincident (p : Vec3) :
  (F32.zero <? norm (mkVec3 (x p - x p) (y p - y p) (z p - z p))%f32)%f32
  = false.
Proof.
  unfold norm. simpl.
  destruct (sub_self_cases (x p)) as [-> | ->],
           (sub_self_cases (y p)) as [-> | ->],
           (sub_self_cases (z p)) as [-> | ->]; reflexivity.
Qed.

Lemma node_distance_coincident (ni nj : Node) :
  position ni = position nj ->
  (F32.zero <? node_distance ni nj)%f32 = false.
Proof.
  intros Hp. unfold node_distance, displacement. rewrite Hp.
  apply norm_coincident.
Qed.

(** X2.  Two distinct nodes at the same position exert nothing on each
    other, whatever that position (infinite or NaN components included) and
    whatever the charges and the cutoff: the pass of the inner loop leaves
    the accumulated force as it was. *)
Theorem coincident_nodes_no_repulsion (s : ForceSimulation) (i j : nat)
    (force : Vec3) :
  (i < length (nodes s))%nat -> (j < length (nodes s))%nat ->
  position (nodes s !!! i) = position (nodes s !!! j) ->
  repulsion_inner_body ieee_div i j force s = Ok force s.
Proof.
  intros Hi Hj Hp. rewrite repulsion_inner_body_eq by assumption.
  unfold accumulate, in_range.
  rewrite (node_distance_coincident _ _ Hp). simpl.
  now destruct (negb _).
Qed.

Lemma coincident_nodes_no_repulsion_witness :
  repulsion_inner_body ieee_div 0 1 unit_x coincident_charges
  = Ok unit_x coincident_charges.
Proof.
  apply (coincident_nodes_no_repulsion coincident_charges 0 1 unit_x);
    first [ reflexivity | simpl; lia ].
Defined.

(** X3.  A link whose two end points are at the same position -- in
    particular a link from a node to itself -- changes nothing, whatever the
    position, the target distance and the strength. *)
Theorem coincident_link_no_force (s : ForceSimulation) (k : nat) (l : Link)
    (td st : float) (nsrc ntgt : Node) :
  links s !! k = Some l ->
  distances s !! k = Some td ->
  strengths s !! k = Some st ->
  nodes s !! size_t_of_int (source l) = Some nsrc ->
  nodes s !! size_t_of_int (target l) = Some ntgt ->
  position nsrc = position ntgt ->
  link_body ieee_div k s = Ok tt s.
Proof.
  intros Hl Hd Hs Hsrc Htgt Hp.
  pose proof (lookup_lt_Some _ _ _ Hl) as Hk.
  pose proof (lookup_lt_Some _ _ _ Hd) as Hkd.
  pose proof (lookup_lt_Some _ _ _ Hs) as Hks.
  pose proof (lookup_lt_Some _ _ _ Hsrc) as Hksrc.
  pose proof (lookup_lt_Some _ _ _ Htgt) as Hktgt.
  apply list_lookup_total_correct in Hl, Hd, Hs, Hsrc, Htgt.
  rewrite link_body_eq; [| assumption |].
  - unfold link_step, link_update. rewrite Hl, Hsrc, Htgt.
    rewrite (node_distance_coincident _ _ Hp). now rewrite set_nodes_id.
  - unfold link_in_bounds. rewrite Hl.
    rewrite !andb_true_iff, !Nat.ltb_lt. auto.
Qed.

Lemma coincident_link_no_force_witness :
  link_body ieee_div 0 self_linked = Ok tt self_linked.
Proof.
  apply (coincident_link_no_force self_linked 0 (mkLink 0 0) f32_5 f32_2
           node_at_unit_x node_at_unit_x); reflexivity.
Defined.

(** ** An engine without nodes *)

(** X4.  With no node installed, [step] completes and changes nothing when
    there is no link either; with any link at all it indexes the empty node
    vector at the first link, the object being as it was. *)
Theorem step_without_nodes (s : ForceSimulation) :
  nodes s = [] ->
  step s = match links s with
           | [] => Ok tt s
           | _ :: _ => OutOfBounds s
           end.
Proof.
  intros Hn. rewrite step_spec. unfold first_fault, faulted, stepped, forced,
    linked.
  destruct s as [ns ls ds ss mx vd]. simpl in *. subst ns.
  destruct ls as [|l ls]; [reflexivity|].
  cbn [length seq List.find].
  assert (Hout : link_in_bounds (mkForceSimulation [] (l :: ls) ds ss mx vd)
                   0 ((l :: ls) !!! 0%nat) = false).
  { unfold link_in_bounds. cbn [nodes length].
    rewrite !andb_false_iff, !Nat.ltb_ge. right. lia. }
  rewrite Hout. reflexivity.
Qed.

Lemma step_without_nodes_witness :
  step link_without_nodes
  = match links link_without_nodes with
    | [] => Ok tt link_without_nodes
    | _ :: _ => OutOfBounds link_without_nodes
    end.
Proof. apply step_without_nodes. reflexivity. Defined.

(** ** Negative link indices *)

Lemma find_seq_first (P : nat -> bool) (count : nat) : forall first k,
  (first <= k < first + count)%nat -> P k = true ->
  exists k', List.find P (seq first count) = Some k' /\ (k' <= k)%nat.
Proof.
  induction count as [|c IH]; intros first k Hk HP; [lia|].
  simpl. destruct (P first) eqn:Hf.
  - exists first. split; [reflexivity|lia].
  - destruct (decide (k = first)) as [->|Hne]; [congruence|].
    apply IH; [lia|assumption].
Qed.

Lemma size_t_of_negative (k : Z) (n : nat) :
  -2147483648 <= k < 0 -> Z.of_nat n <= 2147483648 ->
  (n <= size_t_of_int k)%nat.
Proof.
  intros Hk Hn. unfold size_t_of_int.
  assert (Hmod : k mod 2 ^ 32 = k + 4294967296).
  { symmetry. apply (Z.mod_unique k (2 ^ 32) (-1)); [left|];
      change (2 ^ 32) with 4294967296; lia. }
  rewrite Hmod. lia.
Qed.

(** X5.  A link with a negative source or target is not skipped: the index,
    converted to [size_t], wraps around beyond every vector of at most 2^31
    nodes, so whatever the constraint arrays [step] ends out of bounds, at
    that link or an earlier one. *)
Theorem negative_index_faults (s : ForceSimulation) (k : nat) (l : Link) :
  links s !! k = Some l ->
  -2147483648 <= source l < 0 \/ -2147483648 <= target l < 0 ->
  Z.of_nat (length (nodes s)) <= 2147483648 ->
  exists k', (k' <= k)%nat /\ step s = OutOfBounds (faulted s k').
Proof.
  intros Hl Hneg Hn.
  pose proof (lookup_lt_Some _ _ _ Hl) as Hk.
  apply list_lookup_total_correct in Hl.
  assert (Hout : negb (link_in_bounds s k (links s !!! k)) = true).
  { rewrite Hl. unfold link_in_bounds.
    rewrite negb_true_iff, !andb_false_iff, !Nat.ltb_ge.
    destruct Hneg as [Hs|Ht].
    - left. right. now apply size_t_of_negative.
    - right. now apply size_t_of_negative. }
  destruct (find_seq_first
              (fun i => negb (link_in_bounds s i (links s !!! i)))
              (length (links s)) 0%nat k ltac:(lia) Hout)
    as (k' & Hfind & Hle).
  exists k'. split; [assumption|].
  rewrite step_spec. unfold first_fault. now rewrite Hfind.
Qed.

Lemma negative_index_faults_witness :
  exists k', (k' <= 0)%nat
             /\ step negative_source = OutOfBounds (faulted negative_source k').
Proof.
  apply (negative_index_faults negative_source 0 (mkLink (-1) 0));
    [reflexivity | left; simpl; lia | simpl; lia].
Defined.

(** ** No interaction: cutoff not positive, or every pair beyond it *)

Lemma in_range_positive_cutoff (maxDist d : float) :
  in_range maxDist d = true -> (F32.zero <? maxDist)%f32 = true.
Proof.
  unfold in_range. rewrite andb_true_iff. intros [H0 H1].
  destruct d as [sd|[]| |[] md ed]; try discriminate;
    destruct maxDist as [sm|[]| |[] mm em]; try discriminate; reflexivity.
Qed.

Lemma force_on_inert (maxDist : float) (ns : list Node) (i : nat) :
  (forall j, (j < length ns)%nat -> i <> j ->
             in_range maxDist (node_distance (ns !!! i) (ns !!! j)) = false) ->
  force_on maxDist ns i = zero3.
Proof.
  intros Hall. unfold force_on.
  assert (Hin : forall j, In j (seq 0 (length ns)) -> (j < length ns)%nat)
    by (intros j Hj; apply in_seq in Hj; lia).
  revert Hin. generalize (seq 0 (length ns)).
  intros js. induction js as [|j js IH]; intros Hin; [reflexivity|].
  simpl. unfold accumulate at 2.
  destruct (Nat.eqb_spec i j) as [->|Hne]; simpl.
  - apply IH. intros j' Hj'. apply Hin. now right.
  - rewrite Hall by (auto; apply Hin; now left).
    apply IH. intros j' Hj'. apply Hin. now right.
Qed.

Lemma repulsed_inert (maxDist : float) (ns : list Node) :
  (forall i j, (i < length ns)%nat -> (j < length ns)%nat -> i <> j ->
               in_range maxDist (node_distance (ns !!! i) (ns !!! j)) = false)
  -> repulsed maxDist ns = add_velocity zero3 <$> ns.
Proof.
  intros Hall. apply list_eq. intros k. unfold repulsed.
  rewrite list_lookup_imap, list_lookup_fmap.
  destruct (ns !! k) eqn:Hk; [|reflexivity]. simpl.
  rewrite force_on_inert; [reflexivity|].
  intros j Hj Hne. apply Hall; eauto using lookup_lt_Some.
Qed.

(** X6.  A cutoff that is not positive -- zero, negative or NaN -- switches
    the repulsion off: the phase adds the zero force to every velocity,
    which leaves each component the number it was. *)
Theorem cutoff_not_positive_no_repulsion (s : ForceSimulation) :
  (F32.zero <? maxDistance s)%f32 = false ->
  repulsion_phase ieee_div s
  = Ok tt (set_nodes s (add_velocity zero3 <$> nodes s))
  /\ forall n, same_vector (velocity (add_velocity zero3 n)) (velocity n).
Proof.
  intros Hmx. split; [|intros n; apply vadd_zero3_same].
  rewrite repulsion_phase_eq, repulsed_inert; [reflexivity|].
  intros i j _ _ _.
  destruct (in_range _ _) eqn:Hr; [|reflexivity].
  apply in_range_positive_cutoff in Hr. congruence.
Qed.

Lemma cutoff_not_positive_no_repulsion_witness :
  repulsion_phase ieee_div cutoff_zero
  = Ok tt (set_nodes cutoff_zero (add_velocity zero3 <$> nodes cutoff_zero))
  /\ forall n, same_vector (velocity (add_velocity zero3 n)) (velocity n).
Proof. apply cutoff_not_positive_no_repulsion. reflexivity. Defined.

(** X7.  When every two distinct nodes are at a distance of at least
    [maxDistance], the repulsion phase adds the zero force to every
    velocity: nothing interacts beyond the cutoff radius, the radius itself
    included. *)
Theorem beyond_cutoff_no_repulsion (s : ForceSimulation) :
  (forall i j, (i < length (nodes s))%nat -> (j < length (nodes s))%nat ->
               i <> j ->
               F32.leb (maxDistance s)
                       (node_distance (nodes s !!! i) (nodes s !!! j)) = true)
  -> repulsion_phase ieee_div s
     = Ok tt (set_nodes s (add_velocity zero3 <$> nodes s)).
Proof.
  intros Hall. rewrite repulsion_phase_eq, repulsed_inert; [reflexivity|].
  intros i j Hi Hj Hne. unfold in_range.
  rewrite (F32Facts.leb_not_ltb _ _ (Hall i j Hi Hj Hne)).
  apply andb_false_r.
Qed.

Lemma beyond_cutoff_no_repulsion_witness :
  repulsion_phase ieee_div cutoff_at_distance
  = Ok tt (set_nodes cutoff_at_distance
             (add_velocity zero3 <$> nodes cutoff_at_distance)).
Proof.
  apply beyond_cutoff_no_repulsion.
  intros [|[|i]] [|[|j]] Hi Hj Hne; simpl in Hi, Hj;
    first [ congruence | lia | reflexivity ].
Defined.

(** ** What the force phases and a faulting run leave alone *)

Lemma geometry_forced s : geometry <$> forced s = geometry <$> nodes s.
Proof.
  unfold forced, linked. rewrite geometry_linked_fold. simpl.
  apply geometry_repulsed.
Qed.

Lemma geometry_faulted s k :
  geometry <$> nodes (faulted s k) = geometry <$> nodes s.
Proof.
  unfold faulted. simpl. rewrite geometry_linked_fold.
  apply geometry_repulsed.
Qed.

(** X8.  Positions are written by the integration phase only.  The two
    force phases leave every node's position and charge as they were, so the
    link phase reads the positions [step] started from; and a run that ends
    out of bounds has moved no node, only velocities having been
    updated. *)
Theorem positions_written_by_integration_only (s : ForceSimulation) :
  geometry <$> forced s = geometry <$> nodes s
  /\ match step s with
     | Ok _ s' =>
         position <$> nodes s'
         = (fun n => vadd (position n) (velocity n)) <$> forced s
     | OutOfBounds s' => geometry <$> nodes s' = geometry <$> nodes s
     | DivisionByZero _ => False
     end.
Proof.
  split; [apply geometry_forced|].
  rewrite step_spec. destruct (first_fault s) as [k|].
  - apply geometry_faulted.
  - unfold stepped. simpl.
    induction (forced s) as [|n ns IH]; [reflexivity|].
    change (vadd (position n) (velocity n)
            :: (position <$> map (integrate (velocityDecay s)) ns)
            = vadd (position n) (velocity n)
              :: ((fun n => vadd (position n) (velocity n)) <$> ns)).
    now rewrite IH.
Qed.

(** X9.  On every input, in bounds or not, [step] never divides by zero:
    run with the division that stops at a zero divisor it has the same
    outcome, which is a completed step or an access out of bounds. *)
Theorem step_never_divides_by_zero (s : ForceSimulation) :
  step_checked s = step s
  /\ match step_checked s with
     | Ok _ _ | OutOfBounds _ => True
     | DivisionByZero _ => False
     end.
Proof.
  split; [apply step_checked_eq|].
  rewrite step_checked_eq, step_spec. now destruct (first_fault s).
Qed.

(** ** A link touches its two end points only *)

Lemma link_update_other l td st (ns : list Node) m :
  m <> size_t_of_int (source l) -> m <> size_t_of_int (target l) ->
  link_update l td st ns !! m = ns !! m.
Proof.
  intros Hs Ht. unfold link_update. destruct (_ <? _)%f32; [|reflexivity].
  rewrite !list_lookup_insert_ne by congruence. reflexivity.
Qed.



(** ** The constraint arrays are read at the link indices only *)

Lemma fold_left_ext_in {A B : Type} (f g : A -> B -> A) (l : list B) :
  (forall a b, In b l -> f a b = g a b) ->
  forall a, fold_left f l a = fold_left g l a.
Proof.
  induction l as [|b l IH]; intros H a; [reflexivity|].
  simpl. rewrite (H a b) by now left.
  apply IH. intros a' b' Hb'. apply H. now right.
Qed.

Lemma find_ext_in {A : Type} (f g : A -> bool) (l : list A) :
  (forall a, In a l -> f a = g a) -> find f l = find g l.
Proof.
  induction l as [|a l IH]; intros H; [reflexivity|].
  simpl. rewrite (H a) by now left.
  destruct (g a); [reflexivity|]. apply IH. intros a' Ha'. apply H. now right.
Qed.

Lemma ltb_length_lookup {A : Type} (l l' : list A) (i : nat) :
  (is_Some (l' !! i) <-> is_Some (l !! i)) ->
  (i <? length l')%nat = (i <? length l)%nat.
Proof.
  rewrite !lookup_lt_is_Some. intros H.
  destruct (Nat.ltb_spec i (length l')), (Nat.ltb_spec i (length l));
    try reflexivity; lia.
Qed.

Section Reconfigured.

Variables (s : ForceSimulation) (ds ss : list float).
Hypothesis agree : forall k, (k < length (links s))%nat ->
  ds !! k = distances s !! k /\ ss !! k = strengths s !! k.

Lemma link_in_bounds_reconfigured ns i l :
  (i < length (links s))%nat ->
  link_in_bounds (reconfigured ds ss (set_nodes s ns)) i l
  = link_in_bounds (set_nodes s ns) i l.
Proof.
  intros Hi. destruct (agree i Hi) as [Hd Hs].
  unfold link_in_bounds. simpl.
  rewrite (ltb_length_lookup (distances s) ds) by now rewrite Hd.
  rewrite (ltb_length_lookup (strengths s) ss) by now rewrite Hs.
  reflexivity.
Qed.

Lemma link_step_reconfigured ns ns' i :
  (i < length (links s))%nat ->
  link_step (reconfigured ds ss (set_nodes s ns')) ns i
  = link_step (set_nodes s ns') ns i.
Proof.
  intros Hi. destruct (agree i Hi) as [Hd Hs].
  unfold link_step. simpl.
  now rewrite !list_lookup_total_alt, Hd, Hs.
Qed.

Lemma first_fault_reconfigured :
  first_fault (reconfigured ds ss s) = first_fault s.
Proof.
  unfold first_fault. simpl. apply find_ext_in. intros i Hi.
  apply in_seq in Hi. f_equal.
  pose proof (link_in_bounds_reconfigured (nodes s) i (links s !!! i)
                ltac:(lia)) as H.
  now rewrite set_nodes_id in H.
Qed.

Lemma fold_link_step_reconfigured ns' k ns :
  (k <= length (links s))%nat ->
  fold_left (link_step (reconfigured ds ss (set_nodes s ns'))) (seq 0 k) ns
  = fold_left (link_step (set_nodes s ns')) (seq 0 k) ns.
Proof.
  intros Hk. apply fold_left_ext_in. intros a i Hi. apply in_seq in Hi.
  apply link_step_reconfigured. lia.
Qed.

End Reconfigured.

Lemma first_fault_lt s k : first_fault s = Some k -> (k < length (links s))%nat.
Proof.
  unfold first_fault. intros H. apply find_some in H as [H _].
  apply in_seq in H. lia.
Qed.

(** X11.  [step] reads [distances] and [strengths] at the link indices only:
    constraint arrays that agree with the installed ones at every index below
    the number of links -- longer, shorter or different beyond it -- give the
    same outcome and the same nodes, the run out of bounds included.  In
    particular surplus entries are never read. *)
Theorem constraints_read_per_link (s : ForceSimulation) (ds ss : list float) :
  (forall k, (k < length (links s))%nat ->
             ds !! k = distances s !! k /\ ss !! k = strengths s !! k) ->
  step (reconfigured ds ss s) = outcome_map (reconfigured ds ss) (step s).
Proof.
  intros Hag. rewrite !step_spec, first_fault_reconfigured by assumption.
  destruct (first_fault s) as [k|] eqn:Hff; simpl.
  - apply first_fault_lt in Hff. f_equal.
    unfold faulted, reconfigured, setStrengths, setDistances, set_nodes.
    simpl. f_equal.
    apply (fold_link_step_reconfigured s ds ss Hag
             (repulsed (maxDistance s) (nodes s)) k). lia.
  - f_equal.
    unfold stepped, forced, linked, reconfigured, setStrengths, setDistances,
      set_nodes. simpl. do 2 f_equal.
    apply (fold_link_step_reconfigured s ds ss Hag
             (repulsed (maxDistance s) (nodes s)) (length (links s))). lia.
Qed.

Lemma constraints_read_per_link_witness :
  step (reconfigured [f32_5; F32.one] [f32_2] link_at_rest)
  = outcome_map (reconfigured [f32_5; F32.one] [f32_2]) (step link_at_rest).
Proof.
  apply constraints_read_per_link.
  intros [|k] Hk; [split; reflexivity|simpl in Hk; lia].
Defined.

(** ** A newly constructed engine *)

(** X12.  An engine as the constructor leaves it -- no node, no link, any
    cutoff and decay, NaN included -- is left unchanged by any number of
    steps. *)
Theorem fresh_engine_idle (maxDist velDecay : float) (n : nat) :
  steps n (ForceSimulation_new maxDist velDecay)
  = Ok tt (ForceSimulation_new maxDist velDecay).
Proof.
  induction n as [|n IH]; [reflexivity|].
  cbn [steps]. unfold bind. rewrite step_spec. exact IH.
Qed.

(** ** No damping: a decay of one *)

Lemma digits_shift (m : Z) (k : Z) :
  0 < m -> 0 <= k -> Zdigits2 (m * 2 ^ k) = Zdigits2 m + k.
Proof.
  intros Hm Hk. destruct (Zdigits2_bounds m Hm) as [Hlo Hhi].
  assert (Hp : 0 < 2 ^ k) by (apply Z.pow_pos_nonneg; lia).
  assert (Hd1 : 1 <= Zdigits2 m) by (apply digits_ge; [assumption|simpl; lia]).
  apply Z.le_antisymm.
  - apply digits_le; [nia|]. rewrite Z.pow_add_r by lia. nia.
  - apply digits_ge; [nia|].
    replace (Zdigits2 m + k - 1) with (Zdigits2 m - 1 + k) by lia.
    rewrite Z.pow_add_r by lia. nia.
Qed.

Lemma round_by_one (sx : bool) (ma : positive) (ea : Z) :
  canon (Z.pos ma) ea -> ea <= 104 ->
  binary_round_aux F32.prec F32.emax sx (Z.pos (ma * 8388608)) (ea + -23)
                   loc_Exact
  = S754_finite sx ma ea.
Proof.
  intros (He & Hm & Hn) Hea.
  assert (Hfe : fexp F32.prec F32.emax (Zdigits2 (Z.pos ma) + ea) = ea).
  { apply Z.eqb_eq. apply (proj2 (canonical_canon ma ea)). repeat split; assumption. }
  rewrite Pos2Z.inj_mul. change (Z.pos 8388608) with (2 ^ 23).
  set (M := Z.pos ma * 2 ^ 23).
  assert (HdM : Zdigits2 M = Zdigits2 (Z.pos ma) + 23)
    by (apply digits_shift; lia).
  unfold binary_round_aux.
  rewrite (shr_fexp_spec F32.prec F32.emax M (ea + -23) loc_Exact) by (unfold M; lia).
  cbv zeta. rewrite HdM.
  replace (Zdigits2 (Z.pos ma) + 23 + (ea + -23)) with (Zdigits2 (Z.pos ma) + ea) by lia.
  rewrite Hfe. replace (ea - (ea + -23)) with 23 by lia.
  change (0 <? 23) with true. cbv iota.
  replace (ea + -23 + 23) with ea by lia.
  assert (Hq : M / 2 ^ 23 = Z.pos ma) by (unfold M; apply Z.div_mul; lia).
  assert (Hb : Z.testbit M (23 - 1) = false).
  { unfold M. rewrite Z.mul_pow2_bits_low by lia. reflexivity. }
  assert (Hs : (M mod 2 ^ (23 - 1) =? 0) = true).
  { apply Z.eqb_eq. unfold M. change (2 ^ 23) with (2 * 2 ^ (23 - 1)).
    rewrite Z.mul_assoc. apply Z.mod_mul. lia. }
  rewrite Hq, Hb, Hs. simpl (loc_inexact loc_Exact || negb true).
  cbn [shr_m loc_of_shr_record shr_r shr_s round_nearest_even].
  rewrite (shr_fexp_spec F32.prec F32.emax (Z.pos ma) ea loc_Exact) by lia.
  cbv zeta. rewrite Hfe, Z.sub_diag. change (0 <? 0) with false. cbv iota.
  cbn [shr_record_of_loc shr_m].
  destruct (Z.leb_spec ea (F32.emax - F32.prec)); [reflexivity|].
  unfold F32.emax, F32.prec in *. lia.
Qed.

Lemma mul_one_r (a : float) : number a = true -> (a * F32.one)%f32 = a.
Proof.
  unfold number. rewrite andb_true_iff. intros [Hf Hv].
  destruct a as [sa|sa| |sa ma ea]; try discriminate.
  - now destruct sa.
  - apply valid_canon in Hv as [Hc He].
    unfold F32.mul. change F32.one with (S754_finite false 8388608 (-23)).
    cbn [SFmul]. rewrite xorb_false_r. now apply round_by_one.
Qed.

Lemma add_zero_number (a : float) :
  number a = true -> number (a + F32.zero)%f32 = true.
Proof. destruct a as [[]|[]| |[] m e]; try discriminate; auto. Qed.

Lemma add_zero_idem (a : float) :
  ((a + F32.zero) + F32.zero)%f32 = (a + F32.zero)%f32.
Proof. now destruct a as [[]|[]| |[] m e]. Qed.

Lemma decayed_one (n : nat) (v : Vec3) :
  number3 v = true -> decayed F32.one (S n) v = vadd v zero3.
Proof.
  unfold number3. rewrite !andb_true_iff. intros [[Hx Hy] Hz].
  induction n as [|n IH].
  - unfold decayed, vscale, vadd; simpl.
    now rewrite !mul_one_r by now apply add_zero_number.
  - change (decayed F32.one (S (S n)) v)
      with (vscale (vadd (decayed F32.one (S n) v) zero3) F32.one).
    rewrite IH. unfold vscale, vadd; simpl.
    rewrite !add_zero_idem.
    now rewrite !mul_one_r by now apply add_zero_number.
Qed.

Lemma drifted_one (n : nat) (p v : Vec3) :
  number3 v = true ->
  drifted F32.one (S n) p v = vadd (drifted F32.one n p v) (vadd v zero3).
Proof.
  intros Hv. destruct n as [|n]; [reflexivity|].
  change (drifted F32.one (S (S n)) p v)
    with (vadd (drifted F32.one (S n) p v)
               (vadd (decayed F32.one (S n) v) zero3)).
  rewrite decayed_one by assumption.
  unfold vadd at 2 3; simpl. now rewrite !add_zero_idem.
Qed.

(** X13.  With [velocityDecay] equal to one nothing is damped: a single
    node whose velocity components are binary32 numbers has, after every
    step, the velocity it started with (a zero component possibly with its
    sign cleared), and each step moves it by that same vector. *)
Theorem undamped_node_keeps_velocity (n : nat) (p v : Vec3)
    (c maxDist : float) (ds ss : list float) :
  number3 v = true ->
  steps (S n) (single_node p v c ds ss maxDist F32.one)
  = Ok tt (single_node (drifted F32.one (S n) p v) (vadd v zero3)
             c ds ss maxDist F32.one)
  /\ drifted F32.one (S n) p v
     = vadd (drifted F32.one n p v) (vadd v zero3)
  /\ same_vector (vadd v zero3) v.
Proof.
  intros Hv. split; [|split; [now apply drifted_one|apply vadd_zero3_same]].
  now rewrite steps_single, decayed_one.
Qed.

Lemma undamped_node_keeps_velocity_witness :
  steps 3 (single_node zero3 unit_x F32.one [] [] f32_100 F32.one)
  = Ok tt (single_node (drifted F32.one 3 zero3 unit_x) (vadd unit_x zero3)
             F32.one [] [] f32_100 F32.one)
  /\ drifted F32.one 3 zero3 unit_x
     = vadd (drifted F32.one 2 zero3 unit_x) (vadd unit_x zero3)
  /\ same_vector (vadd unit_x zero3) unit_x.
Proof. apply undamped_node_keeps_velocity. reflexivity. Defined.

(** ** The direction of the forces *)


Lemma signed_as_product a a' b b' :
  signed_as a a' -> signed_as b b' ->
  signed_as (sign_product a b) (sign_product a' b').
Proof.
  intros [-> | ->] [-> | ->]; try (now left); try (now right).
  left. now destruct a'.
Qed.

Lemma signed_as_trans a b c : signed_as a b -> signed_as b c -> signed_as a c.
Proof. intros [-> | ->] H; [now left|assumption]. Qed.

Lemma signed_as_refl a : signed_as a a.
Proof. now right. Qed.

Lemma round_sign_bit (sx : bool) (mx ex : Z) (lx : location) :
  0 <= mx ->
  sign_bit (binary_round_aux F32.prec F32.emax sx mx ex lx) = Some sx.
Proof.
  intros Hm.
  pose proof (binary_round_aux_cases F32.prec F32.emax sx mx ex lx Hm) as H.
  destruct (binary_round_aux _ _ _ _ _ _) as [s|s| |s m e]; simpl;
    [now subst | now subst | contradiction | now destruct H as [-> _]].
Qed.

Lemma sign_mul (a b : float) :
  signed_as (sign_bit (a * b)%f32) (sign_product (sign_bit a) (sign_bit b)).
Proof.
  destruct a as [sa|sa| |sa ma ea], b as [sb|sb| |sb mb eb];
    try (now left); try (now right).
  right. unfold F32.mul. cbn [SFmul sign_bit sign_product].
  apply round_sign_bit. lia.
Qed.

Lemma div_core_nonneg (m1 m2 : positive) (e1 e2 : Z) :
  0 <= fst (fst (SFdiv_core_binary F32.prec F32.emax
                   (Z.pos m1) e1 (Z.pos m2) e2)).
Proof.
  unfold SFdiv_core_binary.
  set (s := e1 - e2 - _).
  set (m' := match s with Z0 => _ | Z.pos _ => _ | Z.neg _ => _ end).
  assert (Hm' : 0 <= m').
  { unfold m'. destruct s; try lia. apply Z.shiftl_nonneg. lia. }
  pose proof (Z.div_pos m' (Z.pos m2) Hm' ltac:(lia)) as Hq.
  unfold Z.div in Hq.
  destruct (Z.div_eucl m' (Z.pos m2)) as [q r]. exact Hq.
Qed.

Lemma sign_div (a b : float) :
  signed_as (sign_bit (a / b)%f32) (sign_product (sign_bit a) (sign_bit b)).
Proof.
  destruct a as [sa|sa| |sa ma ea], b as [sb|sb| |sb mb eb];
    try (now left); try (now right).
  right. unfold F32.div. cbn [SFdiv sign_bit sign_product].
  pose proof (div_core_nonneg ma mb ea eb) as Hq.
  destruct (SFdiv_core_binary _ _ _ _ _ _) as [[q e'] l].
  now apply round_sign_bit.
Qed.

Lemma sign_positive (d : float) :
  (F32.zero <? d)%f32 = true -> sign_bit d = Some false.
Proof. now destruct d as [s|[]| |[] m e]. Qed.

Lemma sign_product_plus (a : option bool) : sign_product a (Some false) = a.
Proof. destruct a as [[]|]; reflexivity. Qed.

Lemma signed_as_number (a : float) (s : option bool) :
  signed_as (sign_bit a) s -> F32.is_nan a = false -> sign_bit a = s.
Proof. intros [H | ->] Hn; [now destruct a|reflexivity]. Qed.

Lemma sign_scaled (u d k : float) (sk : option bool) :
  (F32.zero <? d)%f32 = true ->
  signed_as (sign_bit k) sk ->
  signed_as (sign_bit (u / d * k)%f32) (sign_product (sign_bit u) sk).
Proof.
  intros Hd Hk.
  eapply signed_as_trans; [apply sign_mul|].
  apply signed_as_product; [|exact Hk].
  eapply signed_as_trans; [apply sign_div|].
  rewrite (sign_positive d Hd), sign_product_plus. apply signed_as_refl.
Qed.

Lemma sign_repulsion (ci cj d : float) :
  (F32.zero <? d)%f32 = true ->
  signed_as (sign_bit (ci * cj / (d * d))%f32)
            (sign_product (sign_bit ci) (sign_bit cj)).
Proof.
  intros Hd.
  eapply signed_as_trans; [apply sign_div|].
  rewrite <- (sign_product_plus (sign_product (sign_bit ci) (sign_bit cj))).
  apply signed_as_product; [apply sign_mul|].
  eapply signed_as_trans; [apply sign_mul|].
  rewrite (sign_positive d Hd). now right.
Qed.

(** X14.  Direction of the pairwise force, under the guard of line 68: each
    component that is a number has the sign of the displacement from node
    [i] to node [j] times the signs of the two charges.  Charges of like
    sign therefore accelerate node [i] toward node [j], charges of unlike
    sign away from it. *)
Theorem pair_force_direction (maxDist : float) (ni nj : Node) :
  in_range maxDist (node_distance ni nj) = true ->
  let d := displacement ni nj in
  let f := pair_force ni nj in
  let sc := sign_product (sign_bit (charge ni)) (sign_bit (charge nj)) in
  (F32.is_nan (x f) = false -> sign_bit (x f) = sign_product (sign_bit (x d)) sc)
  /\ (F32.is_nan (y f) = false ->
      sign_bit (y f) = sign_product (sign_bit (y d)) sc)
  /\ (F32.is_nan (z f) = false ->
      sign_bit (z f) = sign_product (sign_bit (z d)) sc).
Proof.
  unfold in_range. rewrite andb_true_iff. intros [Hd _]. cbv zeta.
  unfold node_distance in Hd.
  repeat split; apply signed_as_number; unfold pair_force; cbn [x y z];
    apply sign_scaled; auto using sign_repulsion.
Qed.

Lemma pair_force_direction_witness :
  in_range f32_100 (node_distance node_at_origin node_at_unit_x) = true
  /\ sign_bit (x (pair_force node_at_origin node_at_unit_x)) = Some false.
Proof.
  split; [reflexivity|].
  apply (pair_force_direction f32_100 node_at_origin node_at_unit_x);
    reflexivity.
Defined.

Lemma heavy_spare (m e : Z) :
  heavy m e -> 0 < m /\ e <= fexp F32.prec F32.emax (Zdigits2 m + e).
Proof.
  intros (Hm & He & _). change (2 ^ 23) with 8388608 in Hm.
  split; [lia|]. rewrite fexp32.
  assert (24 <= Zdigits2 m) by (apply digits_ge; [lia|simpl; lia]). lia.
Qed.

(** A rounding from a mantissa with digits to spare is canonical. *)
Lemma round_canon (sx : bool) (M E : Z) (l : location) :
  0 < M -> E <= fexp F32.prec F32.emax (Zdigits2 M + E) ->
  match binary_round_aux F32.prec F32.emax sx M E l with
  | S754_finite _ m e => canon (Z.pos m) e
  | _ => True
  end.
Proof.
  intros HM Hpre. unfold binary_round_aux.
  destruct (shr_fexp_first M E l HM Hpre)
    as (He1 & Hm1 & Hl1 & He1lo & Hm1hi & Hm1n).
  destruct (shr_fexp F32.prec F32.emax M E l) as [mrs1 e1].
  simpl in He1, Hm1, Hl1, Hm1hi, Hm1n.
  assert (Hp1 : 0 < 2 ^ (fexp F32.prec F32.emax (Zdigits2 M + E) - E))
    by (apply Z.pow_pos_nonneg; lia).
  assert (Hm1pos : 0 <= shr_m mrs1)
    by (rewrite Hm1; apply Z.div_pos; lia).
  pose proof (round_nearest_even_bounds (shr_m mrs1) (loc_of_shr_record mrs1))
    as Hr.
  set (m2 := round_nearest_even (shr_m mrs1) (loc_of_shr_record mrs1)) in *.
  destruct (shr_fexp_second m2 e1 ltac:(lia) ltac:(lia) ltac:(lia))
    as [(Hlt & Hm3 & He2)|(Heq & Hm3 & He2)];
    destruct (shr_fexp F32.prec F32.emax m2 e1 loc_Exact) as [mrs2 e2];
    simpl in Hm3, He2; rewrite Hm3; subst e2.
  - destruct m2 as [|p|p] eqn:Hp; [exact I| |exact I].
    destruct (e1 <=? F32.emax - F32.prec); [|exact I].
    repeat split; lia.
  - change (2 ^ 23) with (Z.pos 8388608).
    destruct (e1 + 1 <=? F32.emax - F32.prec); [|exact I].
    repeat split; simpl; lia.
Qed.

Lemma sqrt_canon (a : float) :
  expo_ok a ->
  match F32.sqrt a with
  | S754_finite _ m e => canon (Z.pos m) e
  | _ => True
  end.
Proof.
  destruct a as [sa|[]| |[] m e]; try exact (fun _ => I).
  intros He. simpl in He. unfold F32.sqrt, SFsqrt.
  pose proof (sqrt_core_heavy m e He) as Hc.
  destruct (SFsqrt_core_binary _ _ _ _) as [[q e'] l]. simpl in Hc.
  destruct (heavy_spare q e' Hc) as [Hq Hs].
  now apply round_canon.
Qed.

Lemma norm_canon (v : Vec3) :
  match norm v with
  | S754_finite _ m e => canon (Z.pos m) e
  | _ => True
  end.
Proof.
  unfold norm. apply sqrt_canon.
  repeat apply add_expo_ok; apply mul_expo_ok.
Qed.

Lemma shl_align_value (m : positive) (e e' : Z) :
  e' <= e -> Z.pos (fst (shl_align m e e')) = Z.pos m * 2 ^ (e - e').
Proof.
  intros He. unfold shl_align.
  destruct (e' - e) as [|d|d] eqn:Hd; simpl fst.
  - replace (e - e') with 0 by lia. simpl. lia.
  - lia.
  - replace (e - e') with (Z.pos d) by lia.
    change (Pos.iter xO m d) with (shift_pos d m).
    rewrite Zpower.shift_pos_correct.
    change (Z.pow_pos 2 d) with (2 ^ Z.pos d). lia.
Qed.

Lemma normalize_sign_plus (m e : Z) :
  0 < m -> sign_bit (binary_normalize F32.prec F32.emax m e false) = Some false.
Proof.
  destruct m as [|p|p]; try lia; intros _. simpl.
  unfold binary_round. destruct (shl_align _ _ _) as [mz ez].
  apply round_sign_bit. lia.
Qed.

Lemma normalize_sign_minus (m e : Z) :
  m < 0 -> sign_bit (binary_normalize F32.prec F32.emax m e false) = Some true.
Proof.
  destruct m as [|p|p]; try lia; intros _. simpl.
  unfold binary_round. destruct (shl_align _ _ _) as [mz ez].
  apply round_sign_bit. lia.
Qed.

(** Two canonical positive numbers in order, aligned to a common exponent. *)
Lemma aligned_lt (ma mb : positive) (ea eb : Z) :
  canon (Z.pos ma) ea -> canon (Z.pos mb) eb ->
  (S754_finite false ma ea <? S754_finite false mb eb)%f32 = true ->
  Z.pos (fst (shl_align ma ea (Z.min ea eb)))
  < Z.pos (fst (shl_align mb eb (Z.min ea eb))).
Proof.
  intros (Hea & Hma & Hna) (Heb & Hmb & Hnb).
  unfold F32.ltb, SFltb. cbn [SFcompare].
  rewrite !shl_align_value by lia.
  destruct (Z.compare_spec ea eb) as [E|L|G]; try discriminate.
  - subst eb. rewrite Z.min_id, Z.sub_diag. change (2 ^ 0) with 1.
    change (Pos.compare_cont Eq ma mb) with (Pos.compare ma mb).
    destruct (Pos.compare_spec ma mb); try discriminate; intros _. lia.
  - intros _. rewrite Z.min_l by lia. rewrite Z.sub_diag.
    change (2 ^ 0) with 1.
    assert (Hp : 2 <= 2 ^ (eb - ea)).
    { change 2 with (2 ^ 1) at 1. apply Z.pow_le_mono_r; lia. }
    change (2 ^ 23) with 8388608 in *. change (2 ^ 24) with 16777216 in *.
    nia.
Qed.


Lemma valid_canonical (a : float) : F32.valid a = true -> canonical a.
Proof.
  destruct a as [s|s| |s m e]; try exact (fun _ => I).
  intros H. now apply valid_canon in H as [H _].
Qed.

Lemma norm_canonical (v : Vec3) : canonical (norm v).
Proof. apply norm_canon. Qed.

Lemma sub_sign_plus (d td : float) :
  canonical d -> canonical td ->
  (F32.zero <? d)%f32 = true -> (td <? d)%f32 = true ->
  sign_bit (d - td)%f32 = Some false.
Proof.
  destruct d as [s|[]| |[] md ed]; try discriminate;
    destruct td as [st|[]| |[] mt et]; try discriminate;
    try reflexivity; intros Hd Ht _ Hlt; unfold F32.sub; cbn [SFsub].
  - apply normalize_sign_plus. cbn [cond_Zopp]. lia.
  - apply normalize_sign_plus. cbn [cond_Zopp].
    pose proof (aligned_lt mt md et ed Ht Hd Hlt) as H.
    rewrite (Z.min_comm ed et). lia.
Qed.

Lemma sub_sign_minus (d td : float) :
  canonical d -> canonical td ->
  (F32.zero <? d)%f32 = true -> (d <? td)%f32 = true ->
  sign_bit (d - td)%f32 = Some true.
Proof.
  destruct d as [s|[]| |[] md ed]; try discriminate;
    destruct td as [st|[]| |[] mt et]; try discriminate;
    try reflexivity; intros Hd Ht _ Hlt; unfold F32.sub; cbn [SFsub].
  apply normalize_sign_minus. cbn [cond_Zopp].
  pose proof (aligned_lt md mt ed et Hd Ht Hlt) as H. lia.
Qed.

(** X15.  Direction of the link force, under the guard of line 93 and for a
    rest length that is a binary32 value: each component that is a number
    has the sign of the displacement from source to target times the signs
    of the strength and of [distance - targetDistance]; and that difference
    is positive for a stretched link and negative for a compressed one.  A
    link of positive strength is therefore restoring: stretched, it
    accelerates the source toward the target; compressed, away from it. *)
Theorem link_force_direction (strength targetDistance : float)
    (nsrc ntgt : Node) :
  (F32.zero <? node_distance nsrc ntgt)%f32 = true ->
  F32.valid targetDistance = true ->
  let distance := node_distance nsrc ntgt in
  let d := displacement nsrc ntgt in
  let f := link_force strength targetDistance nsrc ntgt in
  let sk := sign_product (sign_bit strength)
              (sign_bit (distance - targetDistance)%f32) in
  ((F32.is_nan (x f) = false ->
    sign_bit (x f) = sign_product (sign_bit (x d)) sk)
   /\ (F32.is_nan (y f) = false ->
       sign_bit (y f) = sign_product (sign_bit (y d)) sk)
   /\ (F32.is_nan (z f) = false ->
       sign_bit (z f) = sign_product (sign_bit (z d)) sk))
  /\ ((targetDistance <? distance)%f32 = true ->
      sign_bit (distance - targetDistance)%f32 = Some false)
  /\ ((distance <? targetDistance)%f32 = true ->
      sign_bit (distance - targetDistance)%f32 = Some true).
Proof.
  intros Hd Hv. cbv zeta. unfold node_distance in *.
  pose proof (norm_canonical (displacement nsrc ntgt)) as Hc.
  apply valid_canonical in Hv.
  split; [|split; [now apply sub_sign_plus|now apply sub_sign_minus]].
  repeat split; apply signed_as_number; unfold link_force; cbn [x y z];
    apply sign_scaled; auto using sign_mul.
Qed.

Lemma link_force_direction_witness :
  let nsrc := nodes link_stretched !!! 0%nat in
  let ntgt := nodes link_stretched !!! 1%nat in
  let distance := node_distance nsrc ntgt in
  let d := displacement nsrc ntgt in
  let f := link_force f32_2 (F32.of_int 3) nsrc ntgt in
  let sk := sign_product (sign_bit f32_2)
              (sign_bit (distance - F32.of_int 3)%f32) in
  ((F32.is_nan (x f) = false ->
    sign_bit (x f) = sign_product (sign_bit (x d)) sk)
   /\ (F32.is_nan (y f) = false ->
       sign_bit (y f) = sign_product (sign_bit (y d)) sk)
   /\ (F32.is_nan (z f) = false ->
       sign_bit (z f) = sign_product (sign_bit (z d)) sk))
  /\ ((F32.of_int 3 <? distance)%f32 = true ->
      sign_bit (distance - F32.of_int 3)%f32 = Some false)
  /\ ((distance <? F32.of_int 3)%f32 = true ->
      sign_bit (distance - F32.of_int 3)%f32 = Some true).
Proof. intros nsrc ntgt. apply link_force_direction; reflexivity. Defined.

(** ** A position that is not a number *)

Lemma nan_inv (a : float) : F32.is_nan a = true -> a = S754_nan.
Proof. now destruct a. Qed.

Lemma sub_nan (a b : float) :
  F32.is_nan a || F32.is_nan b = true -> (a - b)%f32 = S754_nan.
Proof. destruct a as [| | |], b as [| | |]; try discriminate; reflexivity. Qed.

Lemma mul_nan (a : float) : (S754_nan * a)%f32 = S754_nan.
Proof. reflexivity. Qed.

Lemma add_nan (a b : float) :
  F32.is_nan a || F32.is_nan b = true -> (a + b)%f32 = S754_nan.
Proof. destruct a as [| | |], b as [| | |]; try discriminate; reflexivity. Qed.

Lemma norm_nan (v : Vec3) : has_nan v = true -> norm v = S754_nan.
Proof.
  unfold has_nan, norm. rewrite !orb_true_iff. intros [[H|H]|H];
    apply nan_inv in H; rewrite H, mul_nan;
    repeat first [ rewrite (add_nan S754_nan) by reflexivity
                 | rewrite (add_nan _ S754_nan) by apply orb_true_r ];
    reflexivity.
Qed.

Lemma node_distance_nan (ni nj : Node) :
  has_nan (position ni) || has_nan (position nj) = true ->
  node_distance ni nj = S754_nan.
Proof.
  intros H. apply norm_nan. unfold has_nan, displacement in *. cbn [x y z].
  rewrite !orb_true_iff in H. rewrite !orb_true_iff.
  destruct H as [[[H|H]|H]|[[H|H]|H]];
    [left; left|left; right|right|left; left|left; right|right];
    apply nan_inv in H; rewrite H; now rewrite sub_nan by auto using orb_true_r.
Qed.

(** X16.  A node one of whose position components is a NaN is inert in
    both force phases: its distance to any node is a NaN, every guard on it
    is false, so it neither receives nor exerts a pairwise force, and a link
    that has it as source or target changes nothing. *)
Theorem nan_position_inert (s : ForceSimulation) (i j : nat) (force : Vec3)
    (l : Link) (td st : float) :
  (i < length (nodes s))%nat -> (j < length (nodes s))%nat ->
  has_nan (position (nodes s !!! i)) = true ->
  repulsion_inner_body ieee_div i j force s = Ok force s
  /\ repulsion_inner_body ieee_div j i force s = Ok force s
  /\ (size_t_of_int (source l) = i \/ size_t_of_int (target l) = i ->
      link_update l td st (nodes s) = nodes s).
Proof.
  intros Hi Hj Hn. rewrite !repulsion_inner_body_eq by assumption.
  unfold accumulate, in_range.
  rewrite !node_distance_nan by (rewrite Hn; auto using orb_true_r).
  split; [now destruct (negb _)|]. split; [now destruct (negb _)|].
  intros [E|E]; unfold link_update; rewrite E;
    now rewrite node_distance_nan by (rewrite Hn; auto using orb_true_r).
Qed.

Lemma nan_position_inert_witness :
  repulsion_inner_body ieee_div 0 1 unit_x lost_charge = Ok unit_x lost_charge
  /\ repulsion_inner_body ieee_div 1 0 unit_x lost_charge
     = Ok unit_x lost_charge
  /\ (size_t_of_int (source (mkLink 0 1)) = 0%nat
      \/ size_t_of_int (target (mkLink 0 1)) = 0%nat ->
      link_update (mkLink 0 1) f32_5 f32_2 (nodes lost_charge)
      = nodes lost_charge).
Proof.
  apply (nan_position_inert lost_charge 0 1 unit_x (mkLink 0 1) f32_5 f32_2);
    first [ reflexivity | simpl; lia ].
Defined.
